(** * A tabular-data cleaning pipeline (dataframe_cleaning.py)

    The script is a straight-line PySpark program: it loads a data frame,
    reassigns [df] once per transformation and writes the result.  This
    development embeds the calls it makes as Rocq functions over an explicit
    data model (records as finite maps from column names to scalar values,
    a data frame as a list of partitions), keeps the calls in the order of the
    script inside a small logging/error monad, and states the properties of
    the specification about them.

    A double is held as the exact rational it denotes ([VNum]), an integer
    of type long as itself ([VLong]); where Spark widens a long to a double
    the integer is rounded to the nearest double ([to_double]).  NaN, the
    infinities and the rounding of arithmetic are outside the model.  The
    columns of a data frame are those of its records. *)

From Stdlib Require Import QArith Qround Lqa Sorted.
From stdpp Require Import gmap strings list fin_maps.

(** ** Data model *)

(** A scalar of a record: string, double, date, boolean (the value of a
    comparison), long or null. *)
Inductive value : Type :=
  | VNull
  | VNum (q : Q)
  | VStr (s : string)
  | VBool (b : bool)
  | VDate (d : Z)
  | VLong (n : Z).

(** The double nearest to an integer, ties going to the even mantissa: below
    2^53 every integer is a double; above, the 53 leading bits are kept. *)
Definition to_double (n : Z) : Q :=
  let a := Z.abs n in
  if (a <=? 2 ^ 53)%Z then inject_Z n
  else
    let e := (Z.log2 a - 52)%Z in
    let q := (a / 2 ^ e)%Z in
    let rest := (a mod 2 ^ e)%Z in
    let half := (2 ^ (e - 1))%Z in
    let m := if (rest <? half)%Z then q
             else if (half <? rest)%Z then (q + 1)%Z
             else if Z.even q then q else (q + 1)%Z in
    inject_Z (Z.sgn n * m * 2 ^ e).

(** The number a numeric scalar denotes once it is a double. *)
Definition double_value (v : value) : option Q :=
  match v with
  | VNum x => Some x
  | VLong n => Some (to_double n)
  | _ => None
  end.

(** The cast of a long to double that Spark inserts where a long meets a
    double; other scalars are left as they are. *)
Definition as_double (v : value) : value :=
  match v with
  | VLong n => VNum (to_double n)
  | _ => v
  end.

Definition is_double (v : value) : bool :=
  match v with VNum _ => true | _ => false end.

(** A record maps column names to scalars; a partition is an ordered run of
    records; a dataset is the sequence of its partitions. *)
Abbreviation Row := (gmap string value).
Abbreviation Partition := (list Row).
Abbreviation Dataset := (list Partition).

(** Reading a column of a record.  A column the record lacks reads as null;
    Spark refuses a reference to a column the data frame lacks before it
    reads any record, so what is stated about a run is stated for data that
    has the columns the script reads ([has_columns]). *)
Definition get (r : Row) (c : string) : value := default VNull (r !! c).

Definition is_null (v : value) : bool :=
  match v with VNull => true | _ => false end.

(** Equality of scalars as duplicate elimination sees it: numbers by the
    number they denote, null equal to null. *)
Definition value_eqb (a b : value) : bool :=
  match a, b with
  | VNull, VNull => true
  | VNum x, VNum y => Qeq_bool x y
  | VStr s, VStr t => String.eqb s t
  | VBool x, VBool y => Bool.eqb x y
  | VDate d, VDate e => (d =? e)%Z
  | VLong n, VLong m => (n =? m)%Z
  | _, _ => false
  end.

Definition row_leb (r1 r2 : Row) : bool :=
  forallb (λ kv, match r2 !! kv.1 with
                 | Some w => value_eqb kv.2 w
                 | None => false
                 end) (map_to_list r1).

Definition row_eqb (r1 r2 : Row) : bool := row_leb r1 r2 && row_leb r2 r1.

(** ** The execution engine

    What the script takes from Spark without fixing it: the string built-ins,
    the casts, where a shuffle places the records, and the size at which a
    quantile summary is compressed.  They are parameters of the model. *)
Record Engine : Type := {
  regexp_replace_str : string → string → string → string;
  lower_str : string → string;
  trim_str : string → string;
  cast_value : string → value → value;
  exchange : nat → list Row → Dataset;
  shuffle_partitions : nat;
  compress_threshold : nat
}.

(** ** Column expressions

    [col], [when], [otherwise], the comparison operators and the string
    functions of pyspark.sql build an expression that is evaluated once per
    record; an expression is embedded as the function it denotes. *)
Definition Column : Type := Row → value.

Definition col (name : string) : Column := λ r, get r name.
Definition lit (v : value) : Column := λ _, v.

(** SQL comparison: a long that meets a double is compared as a double; a
    null operand, or operands of otherwise different kinds, give no ordering
    (the comparison is then null). *)
Definition compare_values (a b : value) : option comparison :=
  match a, b with
  | VNum x, VNum y => Some (x ?= y)%Q
  | VStr s, VStr t => Some (String.compare s t)
  | VBool x, VBool y => Some (Bool.compare x y)
  | VDate d, VDate e => Some (d ?= e)%Z
  | VLong n, VLong m => Some (n ?= m)%Z
  | VLong n, VNum y => Some (to_double n ?= y)%Q
  | VNum x, VLong m => Some (x ?= to_double m)%Q
  | _, _ => None
  end.

Definition test (p : comparison → bool) (a b : value) : value :=
  match compare_values a b with
  | Some c => VBool (p c)
  | None => VNull
  end.

Definition is_Lt (c : comparison) : bool := match c with Lt => true | _ => false end.
Definition is_Gt (c : comparison) : bool := match c with Gt => true | _ => false end.
Definition is_Eq (c : comparison) : bool := match c with Eq => true | _ => false end.

(** [a < b], [a > b] and [a == b] on columns. *)
Definition Column_lt (a b : Column) : Column := λ r, test is_Lt (a r) (b r).
Definition Column_gt (a b : Column) : Column := λ r, test is_Gt (a r) (b r).
Definition Column_eq (a b : Column) : Column := λ r, test is_Eq (a r) (b r).

(** A branch of a CASE expression is taken only when its condition is true;
    false and null both fall through. *)
Definition holds (v : value) : bool :=
  match v with VBool true => true | _ => false end.

(** [when(c, v)] opens a CASE expression, [.when(c, v)] adds a branch that is
    tried only if no earlier one was taken, [.otherwise(e)] closes it.  An
    open CASE yields the value of the branch taken on a record, if one was,
    and whether one of its branches is a double: the CASE expression then has
    the type double, and a long it yields is widened. *)
Definition CaseWhen : Type := Row → option value * bool.

Definition when (condition value_ : Column) : CaseWhen :=
  λ r, (if holds (condition r) then Some (value_ r) else None, is_double (value_ r)).

Definition and_when (cw : CaseWhen) (condition value_ : Column) : CaseWhen :=
  λ r, (match (cw r).1 with
        | Some v => Some v
        | None => if holds (condition r) then Some (value_ r) else None
        end,
        (cw r).2 || is_double (value_ r)).

Definition otherwise (cw : CaseWhen) (value_ : Column) : Column :=
  λ r, let out := match (cw r).1 with Some v => v | None => value_ r end in
       if (cw r).2 || is_double (value_ r) then as_double out else out.

(** A string built-in applied to a column: null stays null, a string is
    transformed, anything else is first cast to a string. *)
Definition string_fn (E : Engine) (f : string → string) (v : value) : value :=
  match v with
  | VNull => VNull
  | VStr s => VStr (f s)
  | _ => match cast_value E "string" v with
         | VStr s => VStr (f s)
         | _ => VNull
         end
  end.

Definition regexp_replace (E : Engine) (c : Column) (pattern replacement : string) : Column :=
  λ r, string_fn E (λ s, regexp_replace_str E s pattern replacement) (c r).
Definition lower (E : Engine) (c : Column) : Column := λ r, string_fn E (lower_str E) (c r).
Definition trim (E : Engine) (c : Column) : Column := λ r, string_fn E (trim_str E) (c r).
Definition cast (E : Engine) (c : Column) (type : string) : Column :=
  λ r, cast_value E type (c r).

(** ** Section 4 of the script: the categorical standardization (lines 40-43) *)
Definition categorical_column : Column :=
  otherwise
    (and_when
       (when (Column_eq (col "categorical_column") (lit (VStr "yes"))) (lit (VStr "yes")))
       (Column_eq (col "categorical_column") (lit (VStr "no"))) (lit (VStr "no")))
    (col "categorical_column").

(** ** Section 5 of the script: the capping expression (lines 50-53) *)
Definition numeric_column_capped (lower_bound upper_bound : Q) : Column :=
  otherwise
    (and_when
       (when (Column_lt (col "numeric_column") (lit (VNum lower_bound)))
             (lit (VNum lower_bound)))
       (Column_gt (col "numeric_column") (lit (VNum upper_bound)))
       (lit (VNum upper_bound)))
    (col "numeric_column").

(** The clamp as the specification words it: [lower] if [x < lower], [upper]
    if [x > upper], else [x]. *)
Definition clamp_spec (lower upper x : Q) : Q :=
  match Qlt_le_dec x lower with
  | left _ => lower
  | right _ =>
      match Qlt_le_dec upper x with
      | left _ => upper
      | right _ => x
      end
  end.

(** ** Errors *)

(** What can go wrong inside a stage.  [IndexError] is Python's, for
    [quantiles[0]] and [quantiles[1]]. *)
Inductive cause : Type :=
  | InvalidValue
  | EmptySketch
  | SchemaMismatch
  | IndexError.

Abbreviation result A := (cause + A)%type.

Definition ok {A} (a : A) : result A := inr a.
Definition raise {A} (c : cause) : result A := inl c.

Definition rbind {A B} (m : result A) (f : A → result B) : result B :=
  match m with
  | inl c => inl c
  | inr a => f a
  end.

Fixpoint rmap {A B} (f : A → result B) (l : list A) : result (list B) :=
  match l with
  | [] => ok []
  | a :: l' => rbind (f a) (λ b, rbind (rmap f l') (λ bs, ok (b :: bs)))
  end.

Fixpoint rfold {A B} (f : B → A → result B) (l : list A) (b : B) : result B :=
  match l with
  | [] => ok b
  | a :: l' => rbind (f b a) (rfold f l')
  end.

(** Python list indexing with a non-negative index. *)
Definition index {A} (l : list A) (i : nat) : result A :=
  match l !! i with
  | Some a => ok a
  | None => raise IndexError
  end.

(** ** The quantile summary behind [approxQuantile]

    The script delegates the quantile computation to
    [DataFrame.approxQuantile], whose code is not part of the repository.  The
    specification describes it as a mergeable summary; the definitions of
    this module follow that description. *)
Module Sketch.

(** Modelled from the spec: the summary of section 3, an ordered run of
    (value, weight) tuples; its code is absent from the sources.  A weight
    counts the ingested values the tuple stands for, so it is at least 1. *)
Definition t : Type := list (Q * positive).

(** Modelled from the spec: the sketch "created empty per partition". *)
Definition empty : t := [].

(** Modelled from the spec: N, the number of values ingested so far, i.e.
    the total weight of the summary. *)
Definition total_weight (s : t) : Z :=
  foldr (λ vk n, (Z.pos vk.2 + n)%Z) 0%Z s.

(** Modelled from the spec (4.1): "locate the insertion point by value and
    either merge into an existing tuple or create a new tuple"; two tuples
    of equal value merge eagerly, the weights sum. *)
Fixpoint place (v : Q) (s : t) : t :=
  match s with
  | [] => [(v, 1%positive)]
  | (w, k) :: s' =>
      match (v ?= w)%Q with
      | Lt => (v, 1%positive) :: s
      | Eq => (w, (k + 1)%positive) :: s'
      | Gt => (w, k) :: place v s'
      end
  end.

(** Modelled from the spec (4.1): one pass of compression over the tuples
    that follow the tuple [(v, k)]: two adjacent tuples are combined when
    their combined weight, the rank error the combination causes, stays
    within the budget. *)
Fixpoint compress_from (budget : Q) (v : Q) (k : positive) (rest : t) : t :=
  match rest with
  | [] => [(v, k)]
  | (v', k') :: rest' =>
      if Qle_bool (inject_Z (Z.pos (k + k'))) budget
      then compress_from budget v' (k + k')%positive rest'
      else (v, k) :: compress_from budget v' k' rest'
  end.

(** Modelled from the spec (4.1): "compress adjacent tuples whose combined
    rank-error stays within ε·N". *)
Definition compress (eps : Q) (s : t) : t :=
  match s with
  | [] => []
  | (v, k) :: rest => compress_from (eps * inject_Z (total_weight s)) v k rest
  end.

(** Modelled from the spec (4.1): [insert(value)].  Null is rejected with
    [InvalidValue]; compression is triggered by the size of the summary. *)
Definition insert (eps : Q) (threshold : nat) (x : option Q) (s : t) : result t :=
  match x with
  | None => raise InvalidValue
  | Some v =>
      let s' := place v s in
      ok (if (threshold <? length s')%nat then compress eps s' else s')
  end.

(** Modelled from the spec (4.2): the merge-sort-style walk over two tuple
    sequences, by value ascending; equal values combine, weights add. *)
Fixpoint interleave (a : t) : t → t :=
  fix walk (b : t) : t :=
    match a, b with
    | [], _ => b
    | _, [] => a
    | (x, k) :: a', (y, l) :: b' =>
        match (x ?= y)%Q with
        | Lt => (x, k) :: interleave a' b
        | Eq => (x, (k + l)%positive) :: interleave a' b'
        | Gt => (y, l) :: walk b'
        end
    end.

(** Modelled from the spec (4.2): [merge(a, b)], the interleaving walk
    followed by compression under the same budget rule; merging with an
    empty sketch is the identity operation (4.2, Failure). *)
Definition merge (eps : Q) (a b : t) : t :=
  match a, b with
  | [], _ => b
  | _, [] => a
  | _, _ => compress eps (interleave a b)
  end.

(** Modelled from the spec (4.1): the value whose tuple covers the target
    (1-based) position in sorted order; past the end, the last value. *)
Fixpoint select (target : Z) (s : t) (last : Q) : Q :=
  match s with
  | [] => last
  | (v, k) :: s' =>
      if (target <=? Z.pos k)%Z then v else select (target - Z.pos k) s' v
  end.

(** Modelled from the spec (4.1): [query(rank)]; fails with [EmptySketch]
    when nothing was ever inserted.  The position asked for is
    ceil(rank·N), at least 1. *)
Definition query (rank : Q) (s : t) : result Q :=
  match s with
  | [] => raise EmptySketch
  | (v, _) :: _ =>
      ok (select (Z.max 1 (Qceiling (rank * inject_Z (total_weight s)))) s v)
  end.

End Sketch.

(** ** The quantile coordinator *)

(** Modelled from the spec (section 6, the partition scanner, absent from the
    sources): the values of a column in one partition, null or number (a long
    as the double it is cast to); a record without the column, or with a
    non-numeric value in it, is a [SchemaMismatch]. *)
Definition scan (column : string) (p : Partition) : result (list (option Q)) :=
  rmap (λ r : Row, match r !! column with
                   | Some (VNum q) => ok (Some q)
                   | Some (VLong n) => ok (Some (to_double n))
                   | Some VNull => ok None
                   | _ => raise SchemaMismatch
                   end) p.

(** Modelled from the spec (3, 4.1): the sketch of one partition, built by
    inserting its values in order; nulls are excluded before insertion. *)
Definition build (eps : Q) (threshold : nat) (values : list (option Q)) : result Sketch.t :=
  rfold (λ s x, Sketch.insert eps threshold x s)
        (List.filter (λ x : option Q, match x with Some _ => true | None => false end) values)
        Sketch.empty.

(** Modelled from the spec (4.3): [estimate(partitions, column, ranks)]: one
    sketch per partition, a sequential pairwise reduction into the global
    sketch, then every rank queried against it. *)
Definition estimate (eps : Q) (threshold : nat)
    (partitions : Dataset) (column : string) (ranks : list Q) : result (list Q) :=
  rbind (rmap (λ p, rbind (scan column p) (build eps threshold)) partitions) (λ sketches,
  let global := foldl (Sketch.merge eps) Sketch.empty sketches in
  rmap (λ rank, Sketch.query rank global) ranks).

(** ** The DataFrame methods the script calls *)
Module DataFrame.

(** First occurrences of the records, duplicates removed. *)
Fixpoint distinct (l : list Row) : list Row :=
  match l with
  | [] => []
  | r :: l' => r :: List.filter (λ r', negb (row_eqb r r')) (distinct l')
  end.

(** [df.dropDuplicates()]; the shuffle decides the new partitions. *)
Definition dropDuplicates (E : Engine) (df : Dataset) : Dataset :=
  exchange E (shuffle_partitions E) (distinct (concat df)).

(** [df.dropna(subset=...)]: a record is dropped when any of the listed
    columns is null. *)
Definition dropna (subset : list string) (df : Dataset) : Dataset :=
  map (List.filter (λ r, forallb (λ c, negb (is_null (get r c))) subset)) df.

Definition fill (r : Row) (kv : string * value) : Row :=
  match r !! kv.1 with
  | Some VNull => <[kv.1 := kv.2]> r
  | _ => r
  end.

(** [df.fillna({...})]: a null in a listed column becomes its default, the
    default being taken to have the type of the column. *)
Definition fillna (defaults : list (string * value)) (df : Dataset) : Dataset :=
  map (map (λ r, foldl fill r defaults)) df.

(** [df.withColumn(name, e)]: adds the column, or replaces the column of
    that name, in every record. *)
Definition withColumn (name : string) (e : Column) (df : Dataset) : Dataset :=
  map (map (λ r : Row, <[name := e r]> r)) df.

(** [df.approxQuantile(col, probabilities, relativeError)]: the estimate of
    the coordinator over the partitions of [df], the relative error being
    the ε of the sketches.  Where the column holds no number the call does
    not fail: it answers with the empty list. *)
Definition approxQuantile (E : Engine) (df : Dataset)
    (column : string) (probabilities : list Q) (relativeError : Q) : result (list Q) :=
  match estimate relativeError (compress_threshold E) df column probabilities with
  | inl EmptySketch => ok []
  | answer => answer
  end.

(** [df.withColumnRenamed(existing, new)]; no change when the column is
    missing. *)
Definition withColumnRenamed (existing new : string) (df : Dataset) : Dataset :=
  map (map (λ r : Row, match r !! existing with
                       | Some v => <[new := v]> (delete existing r)
                       | None => r
                       end)) df.

(** [df.drop(c1, c2, ...)]. *)
Definition drop (columns : list string) (df : Dataset) : Dataset :=
  map (map (λ r : Row, foldr delete r columns)) df.

(** [df.repartition(n)]. *)
Definition repartition (E : Engine) (n : nat) (df : Dataset) : Dataset :=
  exchange E n (concat df).

End DataFrame.

(** ** The script as a program

    Every statement that acts on [df] is logged with the numbered section of
    the script it stands in; a failure inside a section aborts the run and is
    reported with that section. *)

(** The numbered sections of the script (its comments "# 1." to "# 9."), the
    sample display and the final save. *)
Inductive step : Type :=
  | DropDuplicates
  | HandleMissingValues
  | CleanColumnData
  | HandleCategoricalColumns
  | HandleOutliers
  | TypeCasting
  | RenameColumns
  | DropUnnecessaryColumns
  | Repartition
  | ShowSample
  | Save.

Inductive failure : Type :=
  | StageFailed (stage_name : step) (c : cause).

(** What a run leaves behind: the calls made, in order, and the files
    written. *)
Record State : Type := {
  calls : list (step * string);
  written : list (string * Dataset)
}.

Definition initial : State := {| calls := []; written := [] |}.

Definition M (A : Type) : Type := State → State * (failure + A).

Definition ret {A} (a : A) : M A := λ st, (st, inr a).

Definition bind {A B} (m : M A) (f : A → M B) : M B :=
  λ st, match m st with
        | (st', inl e) => (st', inl e)
        | (st', inr a) => f a st'
        end.

#[export] Instance M_ret : MRet M := @ret.
#[export] Instance M_bind : MBind M := λ A B f m, bind m f.

(** A computation inside a section: its failure is the section's. *)
Definition within {A} (s : step) (body : result A) : M A :=
  λ st, (st, match body with
             | inl c => inl (StageFailed s c)
             | inr a => inr a
             end).

(** A call of a DataFrame method inside a section. *)
Definition call {A} (s : step) (method : string) (body : result A) : M A :=
  λ st, within s body {| calls := calls st ++ [(s, method)]; written := written st |}.

(** [df.write.csv(path, header=True)]. *)
Definition write_csv (path : string) (df : Dataset) : M unit :=
  λ st, ({| calls := calls st ++ [(Save, "write.csv")];
            written := written st ++ [(path, df)] |}, inr tt).

(** The relative error the script passes to [approxQuantile]: [0.0]. *)
Definition relativeError : Q := 0.

(** The probabilities the script asks for: [[0.05, 0.95]]. *)
Definition probabilities : list Q := [5 # 100; 95 # 100].

(** Lines 16-72 of the script, one line per statement, [df] being the data
    frame read by line 13.  The statements other than [approxQuantile] and
    the two indexings of its answer are taken to succeed, as they do on data
    that has the columns the script reads. *)
Definition pipeline (E : Engine) (df : Dataset) : M Dataset :=
  df ← call DropDuplicates "dropDuplicates" (ok (DataFrame.dropDuplicates E df));
  df ← call HandleMissingValues "dropna"
         (ok (DataFrame.dropna ["important_column1"; "important_column2"] df));
  df ← call HandleMissingValues "fillna"
         (ok (DataFrame.fillna [("column1", VStr "Unknown");
                                ("column2", VNum 0);
                                ("column3", VStr "N/A")] df));
  df ← call CleanColumnData "withColumn"
         (ok (DataFrame.withColumn "cleaned_text"
                (regexp_replace E (col "text_column") "[^a-zA-Z0-9\s]" EmptyString) df));
  df ← call CleanColumnData "withColumn"
         (ok (DataFrame.withColumn "cleaned_text" (lower E (col "cleaned_text")) df));
  df ← call CleanColumnData "withColumn"
         (ok (DataFrame.withColumn "cleaned_text" (trim E (col "cleaned_text")) df));
  df ← call HandleCategoricalColumns "withColumn"
         (ok (DataFrame.withColumn "categorical_column"
                (lower E (trim E (col "categorical_column"))) df));
  df ← call HandleCategoricalColumns "withColumn"
         (ok (DataFrame.withColumn "categorical_column" categorical_column df));
  quantiles ← call HandleOutliers "approxQuantile"
         (DataFrame.approxQuantile E df "numeric_column" probabilities relativeError);
  lower_bound ← within HandleOutliers (index quantiles 0);
  upper_bound ← within HandleOutliers (index quantiles 1);
  df ← call HandleOutliers "withColumn"
         (ok (DataFrame.withColumn "numeric_column_capped"
                (numeric_column_capped lower_bound upper_bound) df));
  df ← call TypeCasting "withColumn"
         (ok (DataFrame.withColumn "numeric_column" (cast E (col "numeric_column") "double") df));
  df ← call TypeCasting "withColumn"
         (ok (DataFrame.withColumn "date_column" (cast E (col "date_column") "date") df));
  df ← call RenameColumns "withColumnRenamed"
         (ok (DataFrame.withColumnRenamed "old_column_name" "new_column_name" df));
  df ← call DropUnnecessaryColumns "drop"
         (ok (DataFrame.drop ["unnecessary_column1"; "unnecessary_column2"] df));
  df ← call Repartition "repartition" (ok (DataFrame.repartition E 10 df));
  call ShowSample "show" (ok tt);;
  write_csv "path/to/cleaned_dataset.csv" df;;
  mret df.

(** ** The stage order of the specification (4.4) *)
Inductive stage : Type :=
  | Dedup
  | MissingValueHandling
  | TextCategoricalNormalization
  | OutlierCapping
  | TypeCoercion
  | RenameDrop
  | RepartitionStage
  | Write.

Definition fixed_order : list stage :=
  [Dedup; MissingValueHandling; TextCategoricalNormalization; OutlierCapping;
   TypeCoercion; RenameDrop; RepartitionStage; Write].

(** The stage a section of the script belongs to; showing a sample is not a
    stage. *)
Definition stage_of (s : step) : option stage :=
  match s with
  | DropDuplicates => Some Dedup
  | HandleMissingValues => Some MissingValueHandling
  | CleanColumnData | HandleCategoricalColumns => Some TextCategoricalNormalization
  | HandleOutliers => Some OutlierCapping
  | TypeCasting => Some TypeCoercion
  | RenameColumns | DropUnnecessaryColumns => Some RenameDrop
  | Repartition => Some RepartitionStage
  | ShowSample => None
  | Save => Some Write
  end.

Definition stage_eqb (a b : stage) : bool :=
  match a, b with
  | Dedup, Dedup | MissingValueHandling, MissingValueHandling
  | TextCategoricalNormalization, TextCategoricalNormalization
  | OutlierCapping, OutlierCapping | TypeCoercion, TypeCoercion
  | RenameDrop, RenameDrop | RepartitionStage, RepartitionStage
  | Write, Write => true
  | _, _ => false
  end.

(** Consecutive calls of one stage count as one run of that stage. *)
Fixpoint runs (l : list stage) : list stage :=
  match l with
  | [] => []
  | a :: l' =>
      match l' with
      | b :: _ => if stage_eqb a b then runs l' else a :: runs l'
      | [] => [a]
      end
  end.

(** The stages a run went through, in order. *)
Definition stages_run (st : State) : list stage :=
  runs (omap (λ c : step * string, stage_of c.1) (calls st)).

(** ** Ranks in a multiset of numbers *)

(** The number a record holds in a column, if it holds one (a long as the
    double it is cast to). *)
Definition number_of (column : string) (r : Row) : option Q :=
  match r !! column with
  | Some (VNum q) => Some q
  | Some (VLong n) => Some (to_double n)
  | _ => None
  end.

(** The numbers a column holds over the whole dataset, nulls left out, in
    whatever way the dataset is split into partitions. *)
Definition numbers (column : string) (df : Dataset) : list Q :=
  omap (number_of column) (concat df).


Definition count (p : Q → bool) (l : list Q) : Z :=
  Z.of_nat (length (List.filter p l)).





(** The column is numeric in the record: a double, a long or null. *)
Definition quantifiable (column : string) (r : Row) : Prop :=
  r !! column = Some VNull ∨ is_Some (number_of column r).

(** The weight a sketch gives to the values that satisfy [p]. *)
Definition weight_where (p : Q → bool) (s : Sketch.t) : Z :=
  foldr (λ vk n, ((if p vk.1 then Z.pos vk.2 else 0) + n)%Z) 0%Z s.

(** The tuples of a sketch are in strictly ascending order of value. *)
Definition ascending (s : Sketch.t) : Prop :=
  StronglySorted (λ a b : Q * positive, (a.1 < b.1)%Q) s.

(** A test on numbers that cannot tell two writings of one number apart. *)
Definition respects (p : Q → bool) : Prop := ∀ x y, x == y → p x = p y.

(** The sketch [s] summarises the values [l] without loss: ascending, every
    value of [l] weighed once, no value that is not in [l]. *)
Definition summarises (s : Sketch.t) (l : list Q) : Prop :=
  ascending s ∧
  (∀ p, respects p → weight_where p s = count p l) ∧
  (∀ v, v ∈ s.*1 → v ∈ l).

(** ** The run of the script *)

(** The data frame that reaches line 46: the input after sections 1 to 4. *)
Definition prepared (E : Engine) (df : Dataset) : Dataset :=
  DataFrame.withColumn "categorical_column" categorical_column
    (DataFrame.withColumn "categorical_column" (lower E (trim E (col "categorical_column")))
       (DataFrame.withColumn "cleaned_text" (trim E (col "cleaned_text"))
          (DataFrame.withColumn "cleaned_text" (lower E (col "cleaned_text"))
             (DataFrame.withColumn "cleaned_text"
                (regexp_replace E (col "text_column") "[^a-zA-Z0-9\s]" EmptyString)
                (DataFrame.fillna [("column1", VStr "Unknown");
                                   ("column2", VNum 0);
                                   ("column3", VStr "N/A")]
                   (DataFrame.dropna ["important_column1"; "important_column2"]
                      (DataFrame.dropDuplicates E df))))))).

(** The calls of the script up to and including [approxQuantile]. *)
Definition calls_to_quantiles : list (step * string) :=
  [(DropDuplicates, "dropDuplicates");
   (HandleMissingValues, "dropna");
   (HandleMissingValues, "fillna");
   (CleanColumnData, "withColumn");
   (CleanColumnData, "withColumn");
   (CleanColumnData, "withColumn");
   (HandleCategoricalColumns, "withColumn");
   (HandleCategoricalColumns, "withColumn");
   (HandleOutliers, "approxQuantile")].

(** The calls of a complete run of the script. *)
Definition script_calls : list (step * string) :=
  calls_to_quantiles ++
  [(HandleOutliers, "withColumn");
   (TypeCasting, "withColumn");
   (TypeCasting, "withColumn");
   (RenameColumns, "withColumnRenamed");
   (DropUnnecessaryColumns, "drop");
   (Repartition, "repartition");
   (ShowSample, "show");
   (Save, "write.csv")].

(** The shuffle only moves records: it neither adds, drops nor alters one. *)
Definition moves_records (E : Engine) : Prop :=
  ∀ n l, concat (exchange E n l) ≡ₚ l.

(** ** Sample data *)

(** An engine whose built-ins leave strings and values alone and whose
    shuffle puts every record in one partition. *)
Definition sample_engine : Engine := {|
  regexp_replace_str := λ s _ _, s;
  lower_str := λ s, s;
  trim_str := λ s, s;
  cast_value := λ _ v, v;
  exchange := λ _ l, [l];
  shuffle_partitions := 200;
  compress_threshold := 4
|}.

Definition sample_record (text : string) (n : value) : Row :=
  {[ "important_column1" := VStr "a";
     "important_column2" := VStr "b";
     "column1" := VNull;
     "column2" := VNum 1;
     "column3" := VStr "c";
     "text_column" := VStr text;
     "categorical_column" := VStr "yes";
     "numeric_column" := n;
     "date_column" := VStr "2024-01-31" ]}.

(** Two partitions holding the numbers 3, 1 and 3, 2 and one null. *)
Definition sample_dataset : Dataset :=
  [ [sample_record "p" (VNum 3); sample_record "q" (VNum 1)];
    [sample_record "r" (VNum 3); sample_record "s" (VNum 2);
     sample_record "t" VNull] ].


(** The values 1 to 100 in four partitions of 25 consecutive values. *)
Definition hundred : Dataset :=
  map (λ first : Z,
         map (λ n : Z, ({[ "numeric_column" := VNum (inject_Z n) ]} : Row))
             (seqZ first 25))
      [1; 26; 51; 76]%Z.

(** A record that already has a column called [numeric_column_capped]. *)
Definition capped_before : Row :=
  {[ "numeric_column" := VNum 5; "numeric_column_capped" := VNum 100 ]}.

(** ** Shapes of records *)

(** A record holds no null, and no gap, in the columns [subset]. *)
Definition complete (subset : list string) (r : Row) : Prop :=
  ∀ c, c ∈ subset → get r c ≠ VNull.

(** A record has the columns [present], holds no null in the columns
    [nonnull] and lacks the columns [absent]. *)
Definition shape (present nonnull absent : list string) (r : Row) : Prop :=
  (∀ c, c ∈ present → is_Some (r !! c)) ∧
  (∀ c, c ∈ nonnull → get r c ≠ VNull) ∧
  (∀ c, c ∈ absent → r !! c = None).

(** The value of the capped column is null or a number between the bounds. *)
Definition capped_between (lower_bound upper_bound : Q) (o : option value) : Prop :=
  o = Some VNull ∨ ∃ y, o = Some (VNum y) ∧ (lower_bound <= y <= upper_bound)%Q.

(** The columns the script reads. *)
Definition script_columns : list string :=
  ["important_column1"; "important_column2"; "column1"; "column2"; "column3";
   "text_column"; "categorical_column"; "numeric_column"; "date_column"].

(** The record has every column of the list. *)
Definition has_columns (columns : list string) (r : Row) : Prop :=
  Forall (λ c, is_Some (r !! c)) columns.

(** ** The stages of the specification as functions

    Each stage is the part of the script that stands under its heading,
    as a function from dataset to dataset. *)
Definition dedup_stage (E : Engine) (df : Dataset) : Dataset :=
  DataFrame.dropDuplicates E df.

Definition missing_value_stage (df : Dataset) : Dataset :=
  DataFrame.fillna [("column1", VStr "Unknown"); ("column2", VNum 0); ("column3", VStr "N/A")]
    (DataFrame.dropna ["important_column1"; "important_column2"] df).

Definition normalization_stage (E : Engine) (df : Dataset) : Dataset :=
  DataFrame.withColumn "categorical_column" categorical_column
    (DataFrame.withColumn "categorical_column" (lower E (trim E (col "categorical_column")))
       (DataFrame.withColumn "cleaned_text" (trim E (col "cleaned_text"))
          (DataFrame.withColumn "cleaned_text" (lower E (col "cleaned_text"))
             (DataFrame.withColumn "cleaned_text"
                (regexp_replace E (col "text_column") "[^a-zA-Z0-9\s]" EmptyString) df)))).

(** The per-row clamp against the bounds. *)
Definition clamp_stage (lower_bound upper_bound : Q) (df : Dataset) : Dataset :=
  DataFrame.withColumn "numeric_column_capped"
    (numeric_column_capped lower_bound upper_bound) df.

(** Outlier capping: the quantile estimate, then the clamp. *)
Definition outlier_capping_stage (E : Engine) (df : Dataset) : result Dataset :=
  rbind (DataFrame.approxQuantile E df "numeric_column" probabilities relativeError)
    (λ quantiles,
       rbind (index quantiles 0) (λ lower_bound,
       rbind (index quantiles 1) (λ upper_bound,
       ok (clamp_stage lower_bound upper_bound df)))).

Definition type_coercion_stage (E : Engine) (df : Dataset) : Dataset :=
  DataFrame.withColumn "date_column" (cast E (col "date_column") "date")
    (DataFrame.withColumn "numeric_column" (cast E (col "numeric_column") "double") df).

Definition rename_drop_stage (df : Dataset) : Dataset :=
  DataFrame.drop ["unnecessary_column1"; "unnecessary_column2"]
    (DataFrame.withColumnRenamed "old_column_name" "new_column_name" df).

Definition repartition_stage (E : Engine) (df : Dataset) : Dataset :=
  DataFrame.repartition E 10 df.

(** What a stage makes of the dataset; writing hands on what it wrote. *)
Definition apply_stage (E : Engine) (s : stage) (df : Dataset) : result Dataset :=
  match s with
  | Dedup => ok (dedup_stage E df)
  | MissingValueHandling => ok (missing_value_stage df)
  | TextCategoricalNormalization => ok (normalization_stage E df)
  | OutlierCapping => outlier_capping_stage E df
  | TypeCoercion => ok (type_coercion_stage E df)
  | RenameDrop => ok (rename_drop_stage df)
  | RepartitionStage => ok (repartition_stage E df)
  | Write => ok df
  end.

(** The sequencer of the specification (4.4): the stages applied in the
    order given, each to the result of the one before; the first failure
    aborts the run and names its stage. *)
Fixpoint sequencer (E : Engine) (order : list stage) (df : Dataset)
  : (stage * cause) + Dataset :=
  match order with
  | [] => inr df
  | s :: rest =>
      match apply_stage E s df with
      | inl c => inl (s, c)
      | inr df' => sequencer E rest df'
      end
  end.

(** What a complete run on the sample dataset delivers, the bounds of its
    numbers 3, 1, 3, 2 being 1 and 3. *)
Definition sample_output : Dataset :=
  repartition_stage sample_engine
    (rename_drop_stage
       (type_coercion_stage sample_engine
          (clamp_stage 1 3 (prepared sample_engine sample_dataset)))).


(** A record of a long column holding 2^53 + 1. *)
Definition long_record : Row :=
  {[ "numeric_column" := VLong 9007199254740993 ]}.

(** A record with a null in [column1], a value in [column2], no [column3],
    and the column that line 60 renames. *)
Definition gappy_record : Row :=
  {[ "column1" := VNull; "column2" := VNum 4; "old_column_name" := VStr "kept" ]}.

(** * Properties *)

(** ** The clamp and the categorical mapping *)

(** The capping expression on a numeric input, through its double value. *)
Lemma capped_double lower_bound upper_bound d (r : Row) :
  double_value (get r "numeric_column") = Some d →
  numeric_column_capped lower_bound upper_bound r
    = VNum (clamp_spec lower_bound upper_bound d).
Proof.
  intros Hd.
  unfold numeric_column_capped, otherwise, and_when, when, Column_lt, Column_gt,
    col, lit, test.
  destruct (get r "numeric_column") as [|x| | | |n]; simpl in Hd; try done;
    injection Hd as <-; simpl; unfold clamp_spec.
  - destruct (Qcompare_spec x lower_bound); simpl;
      destruct (Qlt_le_dec x lower_bound); try lra; try reflexivity;
      destruct (Qcompare_spec x upper_bound); simpl;
      destruct (Qlt_le_dec upper_bound x); try lra; reflexivity.
  - destruct (Qcompare_spec (to_double n) lower_bound); simpl;
      destruct (Qlt_le_dec (to_double n) lower_bound); try lra; try reflexivity;
      destruct (Qcompare_spec (to_double n) upper_bound); simpl;
      destruct (Qlt_le_dec upper_bound (to_double n)); try lra; reflexivity.
Qed.

Lemma capped_value lower_bound upper_bound x (r : Row) :
  r !! "numeric_column" = Some (VNum x) →
  numeric_column_capped lower_bound upper_bound r
    = VNum (clamp_spec lower_bound upper_bound x).
Proof. intros Hx. apply capped_double. unfold get. by rewrite Hx. Qed.

Lemma to_double_small (n : Z) : (Z.abs n <= 2 ^ 53)%Z → to_double n = inject_Z n.
Proof.
  intros Hn. unfold to_double.
  destruct (Z.leb_spec (Z.abs n) (2 ^ 53)) as [_|Hgt]; [done|lia].
Qed.

(** C3, as amended.  The capping expression is a pure total function of the
    numeric input and the bounds.  Its result is a double: with [d] the
    double value of the input (the input itself when it is a double, or a
    long of magnitude at most 2^53; the nearest double for a larger long) it
    yields [lower] when [d < lower], [upper] when [d > upper], and [d]
    otherwise, the tests being tried in that order. *)
Theorem capping_is_clamp (lower_bound upper_bound d : Q) (r : Row) :
  double_value (get r "numeric_column") = Some d →
  let out := numeric_column_capped lower_bound upper_bound r in
  out = VNum (clamp_spec lower_bound upper_bound d) ∧
  ((d < lower_bound)%Q → out = VNum lower_bound) ∧
  (¬ (d < lower_bound)%Q → (d > upper_bound)%Q → out = VNum upper_bound) ∧
  ((lower_bound <= upper_bound)%Q → (d > upper_bound)%Q → out = VNum upper_bound) ∧
  (¬ (d < lower_bound)%Q → ¬ (d > upper_bound)%Q → out = VNum d) ∧
  (∀ x, r !! "numeric_column" = Some (VNum x) → d = x) ∧
  (∀ n, r !! "numeric_column" = Some (VLong n) → (Z.abs n <= 2 ^ 53)%Z → d = inject_Z n).
Proof.
  intros Hd out. unfold out. rewrite (capped_double _ _ d r Hd).
  unfold clamp_spec.
  split; [done|]. split; [|split; [|split; [|split; [|split]]]].
  - intros H. destruct (Qlt_le_dec d lower_bound); [done|lra].
  - intros H1 H2. destruct (Qlt_le_dec d lower_bound); [done|].
    destruct (Qlt_le_dec upper_bound d); [done|lra].
  - intros H1 H2. destruct (Qlt_le_dec d lower_bound); [lra|].
    destruct (Qlt_le_dec upper_bound d); [done|lra].
  - intros H1 H2. destruct (Qlt_le_dec d lower_bound); [done|].
    destruct (Qlt_le_dec upper_bound d); [done|done].
  - intros x Hx. unfold get in Hd. rewrite Hx in Hd. by injection Hd.
  - intros n Hn Hsmall. unfold get in Hd. rewrite Hn in Hd. simpl in Hd.
    injection Hd as <-. by apply to_double_small.
Qed.

Lemma capping_is_clamp_witness :
  let out := numeric_column_capped 0 10 (sample_record "p" (VNum 12)) in
  out = VNum (clamp_spec 0 10 12) ∧
  ((12 < 0)%Q → out = VNum 0) ∧
  (¬ (12 < 0)%Q → (12 > 10)%Q → out = VNum 10) ∧
  ((0 <= 10)%Q → (12 > 10)%Q → out = VNum 10) ∧
  (¬ (12 < 0)%Q → ¬ (12 > 10)%Q → out = VNum 12) ∧
  (∀ x, sample_record "p" (VNum 12) !! "numeric_column" = Some (VNum x) → 12%Q = x) ∧
  (∀ n, sample_record "p" (VNum 12) !! "numeric_column" = Some (VLong n) →
        (Z.abs n <= 2 ^ 53)%Z → 12%Q = inject_Z n).
Proof.
  apply (capping_is_clamp 0 10 12 (sample_record "p" (VNum 12))). reflexivity.
Defined.

(** A long above 2^53 that lies between the bounds does not come back as it
    went in: 2^53 + 1, between 0 and 2^54, is capped to 2^53. *)
Lemma capping_rounds_long_input :
  long_record !! "numeric_column" = Some (VLong 9007199254740993) ∧
  ¬ (inject_Z 9007199254740993 < 0)%Q ∧
  ¬ (inject_Z 9007199254740993 > 18014398509481984)%Q ∧
  numeric_column_capped 0 18014398509481984 long_record = VNum 9007199254740992 ∧
  ¬ (9007199254740992 == inject_Z 9007199254740993)%Q.
Proof.
  split; [reflexivity|]. split; [by vm_compute|]. split; [by vm_compute|].
  split; [by vm_compute|]. by vm_compute.
Qed.

(** With the bounds reversed the second capping undoes the first: 5 is
    capped to 10 by the first test, and 10 to 0 by the second.  The bounds
    the script computes are never reversed ([bounds_ordered]). *)
Lemma capping_not_idempotent_reversed_bounds :
  numeric_column_capped 10 0
    (<["numeric_column" := numeric_column_capped 10 0 (sample_record "p" (VNum 5))]>
       (sample_record "p" (VNum 5)))
  ≠ numeric_column_capped 10 0 (sample_record "p" (VNum 5)).
Proof. vm_compute. discriminate. Qed.

(** C9, as amended.  The capping stage keeps the records in place and, in
    each, every column but [numeric_column_capped] as it was, the numeric
    column included; [numeric_column_capped] holds the capped value. *)
Theorem capping_frame (lower_bound upper_bound : Q) (df : Dataset) :
  Forall2 (Forall2 (λ r r' : Row,
             r' !! "numeric_column" = r !! "numeric_column" ∧
             r' !! "numeric_column_capped"
               = Some (numeric_column_capped lower_bound upper_bound r) ∧
             ∀ c, c ≠ "numeric_column_capped" → r' !! c = r !! c))
    df
    (DataFrame.withColumn "numeric_column_capped"
       (numeric_column_capped lower_bound upper_bound) df).
Proof.
  unfold DataFrame.withColumn.
  apply Forall2_fmap_r, Forall_Forall2_diag, Forall_true. intros p.
  apply Forall2_fmap_r, Forall_Forall2_diag, Forall_true. intros r.
  split; [by rewrite lookup_insert_ne|]. split; [by rewrite lookup_insert_eq|].
  intros c Hc. by rewrite lookup_insert_ne.
Qed.

(** A column called [numeric_column_capped] that the record had before the
    stage does not survive it. *)
Lemma capping_overwrites_existing_column :
  ∃ r' : Row,
    DataFrame.withColumn "numeric_column_capped" (numeric_column_capped 0 10)
      [[capped_before]] = [[r']] ∧
    r' !! "numeric_column_capped" ≠ capped_before !! "numeric_column_capped".
Proof.
  eexists. split; [reflexivity|]. rewrite lookup_insert_eq. vm_compute. discriminate.
Qed.

(** C10.  The mapping of "yes" to "yes" and "no" to "no" returns its input,
    whatever it is; applied after another assignment of the column it
    changes nothing. *)
Theorem categorical_mapping_is_identity (r : Row) (e : Column) (df : Dataset) :
  categorical_column r = col "categorical_column" r ∧
  (∀ s, r !! "categorical_column" = Some (VStr s) → categorical_column r = VStr s) ∧
  DataFrame.withColumn "categorical_column" categorical_column
    (DataFrame.withColumn "categorical_column" e df)
  = DataFrame.withColumn "categorical_column" e df.
Proof.
  assert (∀ r : Row, categorical_column r = col "categorical_column" r) as Hid.
  { intros r0. unfold categorical_column, otherwise, and_when, when, Column_eq, col, lit, test.
    destruct (get r0 "categorical_column") as [| | s | | |] eqn:Hv; simpl; try done.
    destruct (String.compare s "yes") eqn:Hyes; simpl.
    - by apply String.compare_eq_iff in Hyes as ->.
    - destruct (String.compare s "no") eqn:Hno; simpl; try done.
      by apply String.compare_eq_iff in Hno as ->.
    - destruct (String.compare s "no") eqn:Hno; simpl; try done.
      by apply String.compare_eq_iff in Hno as ->. }
  split; [apply Hid|]. split.
  - intros s Hs. rewrite Hid. unfold col, get. by rewrite Hs.
  - unfold DataFrame.withColumn. rewrite <- list_fmap_compose.
    apply list_fmap_ext. intros _ p _. simpl. rewrite <- list_fmap_compose.
    apply list_fmap_ext. intros _ r0 _. simpl.
    rewrite Hid. unfold col, get. rewrite lookup_insert_eq. simpl.
    by rewrite insert_insert_eq.
Qed.

(** ** The summary at relative error 0 *)

Lemma positive_above_budget (p : positive) (budget : Q) :
  (budget <= 0)%Q → Qle_bool (inject_Z (Z.pos p)) budget = false.
Proof.
  intros Hb. apply not_true_is_false. intros H%Qle_bool_iff.
  assert (0 < inject_Z (Z.pos p))%Q by (unfold Qlt; simpl; lia).
  lra.
Qed.

Lemma compress_from_exact budget v k rest :
  (budget <= 0)%Q → Sketch.compress_from budget v k rest = (v, k) :: rest.
Proof.
  intros Hb. revert v k.
  induction rest as [|[v' k'] rest IH]; intros v k; simpl; [done|].
  rewrite positive_above_budget by done. by rewrite IH.
Qed.

Lemma compress_exact (s : Sketch.t) : Sketch.compress relativeError s = s.
Proof.
  destruct s as [|[v k] rest]; simpl; [done|].
  apply compress_from_exact. unfold relativeError. lra.
Qed.

Lemma insert_exact threshold v (s : Sketch.t) :
  Sketch.insert relativeError threshold (Some v) s = ok (Sketch.place v s).
Proof.
  unfold Sketch.insert. by rewrite compress_exact, Tauto.if_same.
Qed.

Lemma interleave_nil_r (s : Sketch.t) : Sketch.interleave s [] = s.
Proof. by destruct s as [|[v k] s]. Qed.

Lemma interleave_nil_l (s : Sketch.t) : Sketch.interleave [] s = s.
Proof. by destruct s. Qed.

Lemma merge_exact (a b : Sketch.t) :
  Sketch.merge relativeError a b = Sketch.interleave a b.
Proof.
  unfold Sketch.merge. destruct a as [|ta a]; [by rewrite interleave_nil_l|].
  destruct b as [|tb b]; [by rewrite interleave_nil_r|]. apply compress_exact.
Qed.

(** C4, as amended.  The relative error the script passes is 0: it lies in
    [0, 1), not strictly above 0; at that error the compression of a summary
    changes nothing, the quantiles are exact. *)
Theorem relativeError_is_zero :
  (relativeError == 0)%Q ∧ (0 <= relativeError)%Q ∧ (relativeError < 1)%Q ∧
  ∀ s : Sketch.t, Sketch.compress relativeError s = s.
Proof.
  unfold relativeError at 1 2 3. repeat split; try lra. apply compress_exact.
Qed.

(** The relative error is not strictly between 0 and 1. *)
Lemma relativeError_not_positive : ¬ ((0 < relativeError)%Q ∧ (relativeError < 1)%Q).
Proof. unfold relativeError. intros [H _]. lra. Qed.

(** ** Order and weights of [place] and [interleave] *)

(** Every tuple above [y] is above anything below [y]. *)
Ltac above H :=
  eapply Forall_impl; [exact H|]; simpl; intros []; simpl; lra.

Lemma place_Forall (P : Q → Prop) v (s : Sketch.t) :
  P v → Forall (λ t, P t.1) s → Forall (λ t, P t.1) (Sketch.place v s).
Proof.
  intros Hv. induction 1 as [|[w k] s Hw Hs IH]; simpl.
  - by repeat constructor.
  - destruct (v ?= w)%Q; repeat constructor; done.
Qed.

Lemma interleave_Forall (P : Q → Prop) (a b : Sketch.t) :
  Forall (λ t, P t.1) a → Forall (λ t, P t.1) b →
  Forall (λ t, P t.1) (Sketch.interleave a b).
Proof.
  intros Ha. revert b.
  induction Ha as [|[x k] a Hx Ha IHa]; intros b Hb.
  - by rewrite interleave_nil_l.
  - induction Hb as [|[y l] b Hy Hb IHb]; [by constructor|].
    simpl. destruct (x ?= y)%Q.
    + constructor; [done|]. by apply IHa.
    + constructor; [done|]. apply IHa. by constructor.
    + constructor; [done|]. apply IHb.
Qed.

Lemma place_ascending v (s : Sketch.t) : ascending s → ascending (Sketch.place v s).
Proof.
  unfold ascending. induction 1 as [|[w k] s Hs IH Hw]; simpl.
  - repeat constructor.
  - destruct (Qcompare_spec v w) as [He|Hl|Hg].
    + constructor; [done|]. done.
    + constructor; [by constructor|]. constructor; [done|].
      above Hw.
    + constructor; [done|]. by apply (place_Forall (λ q, (w < q)%Q)).
Qed.

Lemma interleave_ascending (a b : Sketch.t) :
  ascending a → ascending b → ascending (Sketch.interleave a b).
Proof.
  unfold ascending. intros Ha. revert b.
  induction Ha as [|[x k] a Ha IHa Hx]; intros b Hb.
  - by rewrite interleave_nil_l.
  - induction Hb as [|[y l] b Hb IHb Hy]; [by constructor|].
    simpl. destruct (Qcompare_spec x y) as [He|Hl|Hg].
    + constructor; [by apply IHa|].
      apply (interleave_Forall (λ q, (x < q)%Q)); [done|].
      above Hy.
    + constructor; [apply IHa; by constructor|].
      apply (interleave_Forall (λ q, (x < q)%Q)); [done|].
      constructor; [done|].
      above Hy.
    + constructor; [exact IHb|].
      apply (interleave_Forall (λ q, (y < q)%Q) ((x, k) :: a)); [|done].
      constructor; [done|].
      above Hx.
Qed.

(** ** Weights *)



Lemma weight_where_place p v (s : Sketch.t) :
  respects p →
  weight_where p (Sketch.place v s) = ((if p v then 1 else 0) + weight_where p s)%Z.
Proof.
  intros Hp. induction s as [|[w k] s IH]; simpl; [done|].
  destruct (Qcompare_spec v w) as [He|Hl|Hg]; simpl.
  - rewrite (Hp v w He). destruct (p w); lia.
  - done.
  - rewrite IH. lia.
Qed.

Lemma weight_where_interleave p (a b : Sketch.t) :
  respects p →
  weight_where p (Sketch.interleave a b) = (weight_where p a + weight_where p b)%Z.
Proof.
  intros Hp. revert b.
  induction a as [|[x k] a IHa]; intros b.
  - by rewrite interleave_nil_l.
  - induction b as [|[y l] b IHb]; [simpl; lia|].
    simpl. destruct (Qcompare_spec x y) as [He|Hl|Hg]; simpl.
    + rewrite IHa, (Hp x y He). destruct (p y); lia.
    + rewrite IHa. simpl. lia.
    + simpl in IHb. rewrite IHb. lia.
Qed.







(** ** Selection by position *)


Lemma select_elem (s : Sketch.t) : ∀ target last,
  Sketch.select target s last ∈ last :: s.*1.
Proof.
  induction s as [|[w k] s IH]; intros target last; simpl; [by left|].
  destruct (target <=? Z.pos k)%Z; [right; left|].
  right. apply IH.
Qed.

Lemma select_monotone (s : Sketch.t) : ∀ t1 t2 last,
  ascending s → (t1 <= t2)%Z →
  (Sketch.select t1 s last <= Sketch.select t2 s last)%Q.
Proof.
  induction s as [|[w k] s IH]; intros t1 t2 last Hs Ht; simpl; [lra|].
  apply StronglySorted_inv in Hs as [Hs Hw].
  destruct (Z.leb_spec t1 (Z.pos k)), (Z.leb_spec t2 (Z.pos k)); try lia.
  - lra.
  - pose proof (select_elem s (t2 - Z.pos k) w) as Hin.
    apply elem_of_cons in Hin as [->|Hin]; [lra|].
    apply list_elem_of_fmap in Hin as ([v' k'] & -> & Hin).
    rewrite Forall_forall in Hw. specialize (Hw _ Hin). simpl in *. lra.
  - apply IH; [done|lia].
Qed.

Lemma count_app p (l1 l2 : list Q) : count p (l1 ++ l2) = (count p l1 + count p l2)%Z.
Proof. unfold count. rewrite List.filter_app, length_app. lia. Qed.


Lemma summarises_empty : summarises Sketch.empty [].
Proof.
  split; [constructor|]. split; [done|]. intros v Hv. inversion Hv.
Qed.

Lemma place_elem v (s : Sketch.t) u : u ∈ (Sketch.place v s).*1 → u = v ∨ u ∈ s.*1.
Proof.
  induction s as [|[w k] s IH]; simpl.
  - intros ->%list_elem_of_singleton. by left.
  - destruct (v ?= w)%Q; simpl; rewrite ?elem_of_cons; intuition.
Qed.

Lemma interleave_elem (a b : Sketch.t) u :
  u ∈ (Sketch.interleave a b).*1 → u ∈ a.*1 ∨ u ∈ b.*1.
Proof.
  revert b. induction a as [|[x k] a IHa]; intros b.
  - rewrite interleave_nil_l. by right.
  - induction b as [|[y l] b IHb]; [by left|].
    simpl. destruct (x ?= y)%Q; simpl; rewrite !elem_of_cons.
    + intros [->|[H|H]%IHa]; simpl in *; rewrite ?elem_of_cons; auto.
    + intros [->|[H|H]%IHa]; simpl in *; rewrite ?elem_of_cons in *; intuition.
    + intros [->|[H|H]%IHb]; simpl in *; rewrite ?elem_of_cons in *; intuition.
Qed.

Lemma summarises_place v s l : summarises s l → summarises (Sketch.place v s) (l ++ [v]).
Proof.
  intros (Hs & Hw & Hin). split; [by apply place_ascending|]. split.
  - intros p Hp. rewrite weight_where_place, count_app, Hw by done.
    unfold count. simpl. destruct (p v); simpl; lia.
  - intros u [->|Hu]%place_elem; rewrite elem_of_app, list_elem_of_singleton; auto.
Qed.

Lemma summarises_interleave a b la lb :
  summarises a la → summarises b lb → summarises (Sketch.interleave a b) (la ++ lb).
Proof.
  intros (Ha & Hwa & Hia) (Hb & Hwb & Hib).
  split; [by apply interleave_ascending|]. split.
  - intros p Hp. by rewrite weight_where_interleave, count_app, Hwa, Hwb.
  - intros u [Hu|Hu]%interleave_elem; rewrite elem_of_app; auto.
Qed.

Lemma build_summarises threshold (values : list (option Q)) :
  ∃ s, build relativeError threshold values = ok s ∧ summarises s (omap id values).
Proof.
  unfold build.
  cut (∀ s0 l0, summarises s0 l0 →
        ∃ s, rfold (λ s x, Sketch.insert relativeError threshold x s)
               (List.filter (λ x : option Q, match x with Some _ => true | None => false end) values) s0
             = ok s ∧ summarises s (l0 ++ omap id values)).
  { intros H. apply (H _ [] summarises_empty). }
  induction values as [|[v|] values IH]; intros s0 l0 H0; cbn [List.filter rfold omap].
  - exists s0. by rewrite app_nil_r.
  - rewrite insert_exact. cbn [rbind ok]. simpl omap.
    destruct (IH _ _ (summarises_place v _ _ H0)) as (s & Hs & Hsum).
    exists s. split; [done|]. by rewrite <- app_assoc in Hsum.
  - by apply IH.
Qed.


Lemma scan_numeric column (p : Partition) :
  Forall (quantifiable column) p →
  ∃ values, scan column p = ok values ∧ omap id values = omap (number_of column) p.
Proof.
  unfold scan. induction 1 as [|r p Hr Hp (values & Hv & Ho)]; simpl.
  - by exists [].
  - rewrite Hv. unfold number_of at 1.
    destruct Hr as [Hr|[q Hr]].
    + rewrite Hr. simpl. exists (None :: values). split; [done|]. exact Ho.
    + unfold number_of in Hr.
      destruct (r !! column) as [[|x| | | |n]|]; simpl in *; try done.
      * exists (Some x :: values). split; [done|]. simpl. f_equal. exact Ho.
      * exists (Some (to_double n) :: values). split; [done|]. simpl. f_equal. exact Ho.
Qed.

Lemma numbers_cons column (p : Partition) (df : Dataset) :
  numbers column (p :: df) = omap (number_of column) p ++ numbers column df.
Proof. unfold numbers. simpl. by rewrite omap_app. Qed.

Lemma sketches_summarise threshold column (df : Dataset) :
  Forall (Forall (quantifiable column)) df →
  ∃ sketches,
    rmap (λ p, rbind (scan column p) (build relativeError threshold)) df = ok sketches ∧
    Forall2 (λ p s, summarises s (omap (number_of column) p)) df sketches.
Proof.
  induction 1 as [|p df Hp Hdf (sketches & Hs & Hall)]; cbn [rmap].
  - by exists [].
  - destruct (scan_numeric column p Hp) as (values & -> & Hv).
    destruct (build_summarises threshold values) as (s & Hb & Hsum).
    cbn [rbind ok]. rewrite Hb, Hs. cbn [rbind ok].
    exists (s :: sketches). split; [done|].
    constructor; [|done]. by rewrite <- Hv.
Qed.

Lemma reduction_summarises column (df : Dataset) (sketches : list Sketch.t) :
  Forall2 (λ p s, summarises s (omap (number_of column) p)) df sketches →
  ∀ s0 l0, summarises s0 l0 →
  summarises (foldl (Sketch.merge relativeError) s0 sketches) (l0 ++ numbers column df).
Proof.
  induction 1 as [|p s df sketches Hs Hall IH]; intros s0 l0 H0; simpl.
  - unfold numbers. simpl. by rewrite app_nil_r.
  - rewrite numbers_cons, app_assoc. apply IH.
    rewrite merge_exact. by apply summarises_interleave.
Qed.


(** ** Estimates *)


Lemma global_summarises threshold column (df : Dataset) :
  Forall (Forall (quantifiable column)) df →
  ∃ sketches,
    rmap (λ p, rbind (scan column p) (build relativeError threshold)) df = ok sketches ∧
    summarises (foldl (Sketch.merge relativeError) Sketch.empty sketches) (numbers column df).
Proof.
  intros Hdf. destruct (sketches_summarise threshold column df Hdf) as (sketches & Hs & Hall).
  exists sketches. split; [done|].
  apply (reduction_summarises column df sketches Hall _ [] summarises_empty).
Qed.




Lemma scan_ok_numeric column (p : Partition) values :
  scan column p = ok values → Forall (quantifiable column) p.
Proof.
  unfold scan. revert values. induction p as [|r p IH]; intros values; cbn [rmap]; [done|].
  destruct (r !! column) as [[]|] eqn:Hr; cbn [rbind ok raise]; try done;
    (destruct (rmap _ p) as [c|vs] eqn:Hp; cbn [rbind ok]; [done|]; intros _;
     constructor; [unfold quantifiable, number_of; rewrite Hr; eauto|by eapply IH]).
Qed.

Lemma estimate_ok_numeric eps threshold column (df : Dataset) ranks vs :
  estimate eps threshold df column ranks = ok vs → Forall (Forall (quantifiable column)) df.
Proof.
  unfold estimate.
  destruct (rmap _ df) as [c|sketches] eqn:Hs; cbn [rbind]; [done|]. intros _.
  revert sketches Hs. induction df as [|p df IH]; intros sketches; cbn [rmap]; [done|].
  destruct (scan column p) as [c|values] eqn:Hp; cbn [rbind]; [done|].
  destruct (build eps threshold values); cbn [rbind]; [done|].
  destruct (rmap _ df) as [c|ss] eqn:Hdf; cbn [rbind]; [done|]. intros _.
  constructor; [by eapply scan_ok_numeric|by eapply IH].
Qed.

(** An answer of [approxQuantile] that is not empty is the estimate. *)
Lemma approxQuantile_estimate (E : Engine) (df : Dataset) column ranks q qs :
  DataFrame.approxQuantile E df column ranks relativeError = ok (q :: qs) →
  estimate relativeError (compress_threshold E) df column ranks = ok (q :: qs).
Proof.
  unfold DataFrame.approxQuantile.
  by destruct (estimate _ _ _ _ _) as [[]|].
Qed.


Lemma total_weight_nonneg (s : Sketch.t) : (0 <= Sketch.total_weight s)%Z.
Proof. induction s as [|[v k] s IH]; simpl; lia. Qed.

Lemma query_monotone (s : Sketch.t) r1 r2 v1 v2 :
  ascending s → (r1 <= r2)%Q →
  Sketch.query r1 s = ok v1 → Sketch.query r2 s = ok v2 → (v1 <= v2)%Q.
Proof.
  intros Hs Hr. destruct s as [|[w k] s']; [done|].
  set (s := (w, k) :: s') in *.
  unfold Sketch.query. fold s. cbv zeta. unfold ok. intros H1 H2.
  apply (inj inr) in H1, H2. subst v1 v2.
  apply select_monotone; [done|].
  apply Z.max_le_compat_l, Qceiling_resp_le.
  apply Qmult_le_compat_r; [done|].
  change 0%Q with (inject_Z 0). rewrite <- Zle_Qle. apply total_weight_nonneg.
Qed.

Lemma bounds_ordered (E : Engine) (df : Dataset) column lower_bound upper_bound :
  DataFrame.approxQuantile E df column probabilities relativeError
    = ok [lower_bound; upper_bound] →
  (lower_bound <= upper_bound)%Q.
Proof.
  intros Hq%approxQuantile_estimate.
  pose proof (estimate_ok_numeric _ _ _ _ _ _ Hq) as Hdf.
  revert Hq. unfold estimate.
  destruct (global_summarises (compress_threshold E) column df Hdf) as (sketches & -> & Hsum & _).
  cbn [rbind ok]. cbv zeta. unfold probabilities. cbn [rmap].
  destruct (Sketch.query (5 # 100) _) as [c|lo] eqn:Hlo; cbn [rbind ok]; [done|].
  destruct (Sketch.query (95 # 100) _) as [c|hi] eqn:Hhi; cbn [rbind ok]; [done|].
  intros [= <- <-]. eapply query_monotone; [exact Hsum| |exact Hlo|exact Hhi]. lra.
Qed.

Lemma rmap_app {A B} (f : A → result B) (l1 l2 : list A) :
  rmap f (l1 ++ l2)
  = rbind (rmap f l1) (λ bs1, rbind (rmap f l2) (λ bs2, ok (bs1 ++ bs2))).
Proof.
  induction l1 as [|a l1 IH]; simpl.
  - by destruct (rmap f l2).
  - destruct (f a) as [c|b]; simpl; [done|]. rewrite IH.
    destruct (rmap f l1) as [c|bs1]; simpl; [done|].
    by destruct (rmap f l2).
Qed.

Lemma scan_nulls column (p : Partition) :
  Forall (λ r : Row, r !! column = Some VNull) p →
  scan column p = ok (map (λ _, None) p).
Proof.
  unfold scan. induction 1 as [|r p Hr Hp IHp]; cbn [rmap map]; [done|].
  by rewrite Hr, IHp.
Qed.

Lemma build_nulls eps threshold (p : Partition) :
  build eps threshold (map (λ _, None) p) = ok Sketch.empty.
Proof. unfold build. induction p as [|r p IHp]; [done|exact IHp]. Qed.

(** C5.  Merging with the empty sketch, on either side and at every ε, gives
    the sketch back, and so the same answer to every query; a partition
    without a number contributes the empty sketch, which the reduction
    absorbs wherever the partition stands: the estimate is the one of the
    other partitions, not an error. *)
Theorem merge_empty_identity (eps : Q) (S : Sketch.t) (rank : Q) :
  Sketch.merge eps S Sketch.empty = S ∧
  Sketch.merge eps Sketch.empty S = S ∧
  Sketch.query rank (Sketch.merge eps S Sketch.empty) = Sketch.query rank S ∧
  Sketch.query rank (Sketch.merge eps Sketch.empty S) = Sketch.query rank S ∧
  ∀ threshold column (before after : Dataset) (p : Partition) ranks,
    Forall (λ r : Row, r !! column = Some VNull) p →
    estimate eps threshold (before ++ p :: after) column ranks
    = estimate eps threshold (before ++ after) column ranks.
Proof.
  assert (Sketch.merge eps S Sketch.empty = S) as Hr by (by destruct S).
  assert (Sketch.merge eps Sketch.empty S = S) as Hl by (by destruct S).
  rewrite Hr, Hl. do 4 (split; [done|]).
  intros threshold column before after p ranks Hp. unfold estimate.
  rewrite !rmap_app. cbn [rmap].
  rewrite (scan_nulls column p Hp). cbn [rbind ok].
  rewrite (build_nulls eps threshold p). cbn [rbind ok].
  destruct (rmap _ before) as [c|sb]; cbn [rbind]; [done|].
  destruct (rmap _ after) as [c|sa]; cbn [rbind ok]; [done|].
  rewrite !foldl_app. cbn [foldl].
  by assert (Sketch.merge eps (foldl (Sketch.merge eps) Sketch.empty sb) Sketch.empty
             = foldl (Sketch.merge eps) Sketch.empty sb) as -> by (by destruct (foldl _ _ sb)).
Qed.

(** A partition without a number contributes the empty sketch, which the
    reduction absorbs: the estimate is the one of the other partitions. *)
Lemma null_partition_absorbed threshold column (df : Dataset) (p : Partition) ranks :
  Forall (λ r : Row, r !! column = Some VNull) p →
  estimate relativeError threshold (df ++ [p]) column ranks
  = estimate relativeError threshold df column ranks.
Proof.
  intros Hp. unfold estimate. rewrite rmap_app.
  destruct (rmap _ df) as [c|sketches]; cbn [rbind]; [done|].
  assert (scan column p = ok (map (λ _, None) p)) as Hscan.
  { unfold scan. induction Hp as [|r p Hr Hp IHp]; cbn [rmap map]; [done|].
    by rewrite Hr, IHp. }
  assert (build relativeError threshold (map (λ _, None) p) = ok Sketch.empty) as Hbuild.
  { unfold build. clear Hp Hscan. induction p as [|r p IHp]; [done|exact IHp]. }
  cbn [rmap]. rewrite Hscan. cbn [rbind ok]. rewrite Hbuild. cbn [rbind ok].
  rewrite foldl_app. cbn [foldl].
  by rewrite merge_exact, interleave_nil_r.
Qed.

(** The scenario of the specification: 1 to 100 in four partitions give the
    bounds 5 and 95. *)
Lemma hundred_bounds :
  DataFrame.approxQuantile sample_engine hundred "numeric_column"
    probabilities relativeError = ok [5%Q; 95%Q].
Proof. vm_compute. reflexivity. Qed.






Lemma clamp_spec_fixed lower_bound upper_bound d :
  (lower_bound <= upper_bound)%Q →
  clamp_spec lower_bound upper_bound (clamp_spec lower_bound upper_bound d)
  = clamp_spec lower_bound upper_bound d.
Proof.
  intros Hb. unfold clamp_spec.
  destruct (Qlt_le_dec d lower_bound).
  - destruct (Qlt_le_dec lower_bound lower_bound); [lra|].
    destruct (Qlt_le_dec upper_bound lower_bound); [lra|done].
  - destruct (Qlt_le_dec upper_bound d).
    + destruct (Qlt_le_dec upper_bound lower_bound); [lra|].
      destruct (Qlt_le_dec upper_bound upper_bound); [lra|done].
    + destruct (Qlt_le_dec d lower_bound); [lra|].
      destruct (Qlt_le_dec upper_bound d); [lra|done].
Qed.

(** C6.  The capping is idempotent: with the bounds the quantile computation
    of line 46 returns, capping the capped value of a numeric input, double
    or long, gives the capped value again. *)
Theorem capping_idempotent (E : Engine) (df : Dataset)
    (lower_bound upper_bound d : Q) (r : Row) :
  DataFrame.approxQuantile E df "numeric_column" probabilities relativeError
    = ok [lower_bound; upper_bound] →
  double_value (get r "numeric_column") = Some d →
  numeric_column_capped lower_bound upper_bound
    (<["numeric_column" := numeric_column_capped lower_bound upper_bound r]> r)
  = numeric_column_capped lower_bound upper_bound r.
Proof.
  intros Hb%bounds_ordered Hd.
  rewrite (capped_double _ _ d r Hd).
  rewrite (capped_double _ _ (clamp_spec lower_bound upper_bound d)).
  - f_equal. by apply clamp_spec_fixed.
  - unfold get. by rewrite lookup_insert_eq.
Qed.

Lemma capping_idempotent_witness :
  numeric_column_capped 1 3
    (<["numeric_column" := numeric_column_capped 1 3 (sample_record "p" (VNum 12))]>
       (sample_record "p" (VNum 12)))
  = numeric_column_capped 1 3 (sample_record "p" (VNum 12)).
Proof.
  apply (capping_idempotent sample_engine sample_dataset 1 3 12
           (sample_record "p" (VNum 12))).
  - vm_compute. reflexivity.
  - reflexivity.
Defined.

(** ** The run of the script *)

Lemma rmap_length {A B} (f : A → result B) (l : list A) (l' : list B) :
  rmap f l = ok l' → length l' = length l.
Proof.
  revert l'. induction l as [|a l IH]; intros l'; simpl.
  - by intros [= <-].
  - destruct (f a) as [c|b]; simpl; [done|].
    destruct (rmap f l) as [c|bs]; simpl; [done|].
    intros [= <-]. simpl. f_equal. by apply IH.
Qed.

Lemma distinct_Forall (P : Row → Prop) (l : list Row) :
  Forall P l → Forall P (DataFrame.distinct l).
Proof.
  induction 1 as [|r l Hr Hl IH]; simpl; [done|].
  constructor; [done|].
  rewrite Forall_forall in IH. apply Forall_forall.
  intros x Hx%list_elem_of_In%filter_In. apply IH, list_elem_of_In, Hx.
Qed.

Lemma each_record_Forall (P : Row → Prop) (f : Row → Row) (df : Dataset) :
  (∀ r, P r → P (f r)) → Forall (Forall P) df → Forall (Forall P) (map (map f) df).
Proof.
  intros Hf Hdf. apply Forall_map. eapply Forall_impl; [exact Hdf|].
  intros p Hp. apply Forall_map. eapply Forall_impl; [exact Hp|]. exact Hf.
Qed.

Lemma dropna_Forall (P : Row → Prop) subset (df : Dataset) :
  Forall (Forall P) df → Forall (Forall P) (DataFrame.dropna subset df).
Proof.
  intros Hdf. apply Forall_map. eapply Forall_impl; [exact Hdf|].
  intros p Hp. rewrite Forall_forall in Hp. apply Forall_forall.
  intros x Hx%list_elem_of_In%filter_In. apply Hp, list_elem_of_In, Hx.
Qed.

Lemma fill_other (r : Row) (kv : string * value) c :
  kv.1 ≠ c → DataFrame.fill r kv !! c = r !! c.
Proof.
  intros Hne. unfold DataFrame.fill.
  destruct (r !! kv.1) as [[]|]; try done. by rewrite lookup_insert_ne.
Qed.

Section Run.

Context (E : Engine).

(** The run in closed form: it turns on the outcome of [approxQuantile] on
    the prepared data frame and on nothing else. *)
Lemma pipeline_run (df : Dataset) :
  pipeline E df initial =
  match DataFrame.approxQuantile E (prepared E df) "numeric_column" probabilities relativeError with
  | inl c => ({| calls := calls_to_quantiles; written := [] |},
              inl (StageFailed HandleOutliers c))
  | inr quantiles =>
      match index quantiles 0, index quantiles 1 with
      | inr lower_bound, inr upper_bound =>
          let out :=
            DataFrame.repartition E 10
              (DataFrame.drop ["unnecessary_column1"; "unnecessary_column2"]
                 (DataFrame.withColumnRenamed "old_column_name" "new_column_name"
                    (DataFrame.withColumn "date_column" (cast E (col "date_column") "date")
                       (DataFrame.withColumn "numeric_column"
                          (cast E (col "numeric_column") "double")
                          (DataFrame.withColumn "numeric_column_capped"
                             (numeric_column_capped lower_bound upper_bound)
                             (prepared E df)))))) in
          ({| calls := script_calls;
              written := [("path/to/cleaned_dataset.csv", out)] |}, inr out)
      | inl c, _ | _, inl c =>
          ({| calls := calls_to_quantiles; written := [] |},
           inl (StageFailed HandleOutliers c))
      end
  end.
Proof.
  unfold pipeline, prepared.
  cbv [mbind M_bind bind call within ok mret M_ret ret write_csv initial calls written].
  simpl app.
  destruct (DataFrame.approxQuantile _ _ _ _ _) as [c|quantiles]; [done|].
  destruct (index quantiles 0) as [c|lo]; [by destruct (index quantiles 1)|].
  destruct (index quantiles 1) as [c|hi]; done.
Qed.

(** [approxQuantile] answers with no value at all or with one value per
    probability. *)
Lemma quantiles_none_or_two (df : Dataset) column quantiles :
  DataFrame.approxQuantile E df column probabilities relativeError = ok quantiles →
  quantiles = [] ∨ ∃ lower_bound upper_bound, quantiles = [lower_bound; upper_bound].
Proof.
  unfold DataFrame.approxQuantile.
  destruct (estimate _ _ _ _ _) as [[]|vs] eqn:Hvs; try done.
  - intros [= <-]. by left.
  - intros [= <-]. right. revert Hvs. unfold estimate.
    destruct (rmap _ df) as [c|sketches]; cbn [rbind]; [done|].
    intros Hlen%rmap_length.
    destruct vs as [|lo [|hi [|]]]; try done. by exists lo, hi.
Qed.

(** The sequencer on the fixed order, in closed form. *)
Lemma sequencer_fixed_order (df : Dataset) :
  sequencer E fixed_order df =
  match outlier_capping_stage E (prepared E df) with
  | inl c => inl (OutlierCapping, c)
  | inr capped => inr (repartition_stage E (rename_drop_stage (type_coercion_stage E capped)))
  end.
Proof.
  unfold fixed_order. cbn [sequencer apply_stage ok].
  change (normalization_stage E (missing_value_stage (dedup_stage E df)))
    with (prepared E df).
  by destruct (outlier_capping_stage E (prepared E df)).
Qed.

Lemma exchange_Forall (P : Row → Prop) n (l : list Row) :
  moves_records E → Forall P l → Forall (Forall P) (exchange E n l).
Proof.
  intros HE Hl. apply Forall_concat. by rewrite (HE n l).
Qed.

(** Sections 1 to 4 leave the numeric column of every record they keep as
    it was. *)
Lemma prepared_numeric_column (P : option value → Prop) (df : Dataset) :
  moves_records E →
  Forall (Forall (λ r : Row, P (r !! "numeric_column"))) df →
  Forall (Forall (λ r : Row, P (r !! "numeric_column"))) (prepared E df).
Proof.
  intros HE Hdf. unfold prepared.
  repeat (apply (each_record_Forall (λ r : Row, P (r !! "numeric_column")));
          [intros r Hr; by rewrite lookup_insert_ne|]).
  apply (each_record_Forall (λ r : Row, P (r !! "numeric_column"))).
  { intros r Hr. simpl. by rewrite !fill_other. }
  apply dropna_Forall. apply exchange_Forall; [done|].
  apply distinct_Forall. by apply Forall_concat.
Qed.


(** C8.  On data that has the columns the script reads, the script is the
    sequencer of the specification run on the fixed order: it delivers what
    dedup, missing-value handling, text and categorical normalization,
    outlier capping (the estimate, then the clamp), type coercion, rename
    and drop, repartition and write deliver when each is applied, in that
    order, to the result of the one before, and fails where and as that
    composition fails.  The calls of a complete run are those of the script
    in its order, and what it writes is what it delivers. *)
Theorem stages_in_fixed_order (df : Dataset) :
  Forall (Forall (has_columns script_columns)) df →
  (∀ out, (pipeline E df initial).2 = inr out ↔ sequencer E fixed_order df = inr out) ∧
  (∀ s c, (pipeline E df initial).2 = inl (StageFailed s c) ↔
          s = HandleOutliers ∧ sequencer E fixed_order df = inl (OutlierCapping, c)) ∧
  stages_run (pipeline E df initial).1 `prefix_of` fixed_order ∧
  (∀ out, (pipeline E df initial).2 = inr out →
     calls (pipeline E df initial).1 = script_calls ∧
     stages_run (pipeline E df initial).1 = fixed_order ∧
     written (pipeline E df initial).1 = [("path/to/cleaned_dataset.csv", out)]).
Proof.
  intros _. rewrite pipeline_run, sequencer_fixed_order. unfold outlier_capping_stage.
  destruct (DataFrame.approxQuantile _ _ _ _ _) as [c|quantiles]; cbn [rbind].
  { split; [done|]. split; [|split; [|done]].
    - intros s c'. cbn [snd]. split; [by intros [= -> ->]|by intros [-> [= ->]]].
    - by exists [TypeCoercion; RenameDrop; RepartitionStage; Write]. }
  destruct (index quantiles 0) as [c|lower_bound]; cbn [rbind].
  { split; [by destruct (index quantiles 1)|]. split; [|split; [|by destruct (index quantiles 1)]].
    - intros s c'. destruct (index quantiles 1); cbn [snd];
        (split; [by intros [= -> ->]|by intros [-> [= ->]]]).
    - destruct (index quantiles 1);
        by exists [TypeCoercion; RenameDrop; RepartitionStage; Write]. }
  destruct (index quantiles 1) as [c|upper_bound]; cbn [rbind ok].
  { split; [done|]. split; [|split; [|done]].
    - intros s c'. cbn [snd]. split; [by intros [= -> ->]|by intros [-> [= ->]]].
    - by exists [TypeCoercion; RenameDrop; RepartitionStage; Write]. }
  cbv zeta. cbn [fst snd]. split; [|split; [|split]].
  - intros out. unfold repartition_stage, rename_drop_stage, type_coercion_stage, clamp_stage.
    split; intros [= <-]; reflexivity.
  - intros s c'. split; [done|by intros [_ ?]].
  - by exists [].
  - intros out [= <-]. done.
Qed.


End Run.

Lemma sample_engine_moves_records : moves_records sample_engine.
Proof. intros n l. simpl. by rewrite app_nil_r. Defined.

Lemma sample_dataset_columns :
  Forall (Forall (has_columns script_columns)) sample_dataset.
Proof. repeat (constructor; try (eexists; reflexivity)). Defined.

Lemma sample_quantiles :
  DataFrame.approxQuantile sample_engine (prepared sample_engine sample_dataset)
    "numeric_column" probabilities relativeError = ok [1%Q; 3%Q].
Proof. vm_compute. reflexivity. Defined.

Lemma sample_run : (pipeline sample_engine sample_dataset initial).2 = inr sample_output.
Proof. rewrite pipeline_run, sample_quantiles. reflexivity. Defined.

Lemma stages_in_fixed_order_witness :
  (pipeline sample_engine sample_dataset initial).2 = inr sample_output ∧
  sequencer sample_engine fixed_order sample_dataset = inr sample_output ∧
  calls (pipeline sample_engine sample_dataset initial).1 = script_calls ∧
  stages_run (pipeline sample_engine sample_dataset initial).1 = fixed_order ∧
  written (pipeline sample_engine sample_dataset initial).1
    = [("path/to/cleaned_dataset.csv", sample_output)].
Proof.
  destruct (stages_in_fixed_order sample_engine sample_dataset sample_dataset_columns)
    as (Hsame & _ & _ & Hcomplete).
  split; [exact sample_run|]. split; [apply Hsame, sample_run|].
  apply Hcomplete, sample_run.
Defined.



(** * Further properties of the script *)

(** ** Equality of records as duplicate elimination sees it *)

Lemma value_eqb_refl v : value_eqb v v = true.
Proof.
  destruct v; simpl; try done.
  - apply Qeq_bool_iff. reflexivity.
  - apply String.eqb_refl.
  - by destruct b.
  - apply Z.eqb_refl.
  - apply Z.eqb_refl.
Qed.

Lemma value_eqb_sym v w : value_eqb v w = value_eqb w v.
Proof.
  destruct v, w; simpl; try done.
  - apply eq_true_iff_eq. rewrite !Qeq_bool_iff. split; intros H; by symmetry.
  - apply String.eqb_sym.
  - by destruct b, b0.
  - apply Z.eqb_sym.
  - apply Z.eqb_sym.
Qed.

Lemma value_eqb_trans u v w :
  value_eqb u v = true → value_eqb v w = true → value_eqb u w = true.
Proof.
  destruct u, v, w; simpl; try done.
  - rewrite !Qeq_bool_iff. intros H1 H2. by rewrite H1.
  - rewrite !String.eqb_eq. congruence.
  - destruct b, b0, b1; done.
  - rewrite !Z.eqb_eq. congruence.
  - rewrite !Z.eqb_eq. congruence.
Qed.

Lemma row_leb_spec (r1 r2 : Row) :
  row_leb r1 r2 = true ↔
  ∀ k v, r1 !! k = Some v → ∃ w, r2 !! k = Some w ∧ value_eqb v w = true.
Proof.
  unfold row_leb. rewrite forallb_forall. split.
  - intros H k v Hk.
    assert (In (k, v) (map_to_list r1)) as Hin
      by apply list_elem_of_In, elem_of_map_to_list, Hk.
    specialize (H (k, v) Hin). simpl in H.
    destruct (r2 !! k) as [w|]; [by exists w|done].
  - intros H [k v] Hin%list_elem_of_In%elem_of_map_to_list. simpl.
    destruct (H k v Hin) as (w & -> & Hw). done.
Qed.

Lemma row_eqb_refl r : row_eqb r r = true.
Proof.
  unfold row_eqb.
  assert (row_leb r r = true) as ->; [|done].
  apply row_leb_spec. intros k v Hk. exists v. split; [done|apply value_eqb_refl].
Qed.

Lemma row_eqb_sym r1 r2 : row_eqb r1 r2 = row_eqb r2 r1.
Proof. unfold row_eqb. apply andb_comm. Qed.

Lemma row_leb_trans r1 r2 r3 :
  row_leb r1 r2 = true → row_leb r2 r3 = true → row_leb r1 r3 = true.
Proof.
  rewrite !row_leb_spec. intros H12 H23 k v Hk.
  destruct (H12 k v Hk) as (w & Hw & Hvw).
  destruct (H23 k w Hw) as (x & Hx & Hwx).
  exists x. split; [done|]. by eapply value_eqb_trans.
Qed.

Lemma row_eqb_trans r1 r2 r3 :
  row_eqb r1 r2 = true → row_eqb r2 r3 = true → row_eqb r1 r3 = true.
Proof.
  unfold row_eqb. rewrite !andb_true_iff. intros [H12 H21] [H23 H32].
  split; eapply row_leb_trans; eauto.
Qed.

(** ** Duplicate elimination *)

Lemma filter_filter_length {A} (p q : A → bool) (l : list A) :
  (length (List.filter p (List.filter q l)) ≤ length (List.filter p l))%nat.
Proof.
  induction l as [|a l IH]; simpl; [done|].
  destruct (q a); simpl; destruct (p a); simpl; lia.
Qed.

Lemma filter_length_Permutation {A} (p : A → bool) (l l' : list A) :
  l ≡ₚ l' → length (List.filter p l) = length (List.filter p l').
Proof. induction 1; simpl; repeat case_match; simpl; congruence. Qed.

Lemma distinct_at_most_one (l : list Row) r :
  (length (List.filter (row_eqb r) (DataFrame.distinct l)) ≤ 1)%nat.
Proof.
  induction l as [|a l IH]; simpl; [lia|].
  destruct (row_eqb r a) eqn:Hra; simpl.
  - assert (List.filter (row_eqb r)
              (List.filter (λ r', negb (row_eqb a r')) (DataFrame.distinct l)) = []) as ->; [|simpl; lia].
    clear IH. induction (DataFrame.distinct l) as [|y D IHD]; simpl; [done|].
    destruct (row_eqb a y) eqn:Hay; simpl; [exact IHD|].
    destruct (row_eqb r y) eqn:Hry; [|exact IHD].
    rewrite row_eqb_sym in Hra. rewrite (row_eqb_trans a r y Hra Hry) in Hay. done.
  - etrans; [apply filter_filter_length|done].
Qed.

Lemma distinct_represents (l : list Row) r :
  r ∈ l → ∃ y, y ∈ DataFrame.distinct l ∧ row_eqb r y = true.
Proof.
  induction l as [|a l IH]; simpl; [by intros ?%elem_of_nil|].
  intros [->|Hr]%elem_of_cons.
  - exists a. split; [left|apply row_eqb_refl].
  - destruct (IH Hr) as (y & Hy & Hry).
    destruct (row_eqb a y) eqn:Hay.
    + exists a. split; [left|]. rewrite row_eqb_sym in Hay. by eapply row_eqb_trans.
    + exists y. split; [|done]. right.
      apply list_elem_of_In, filter_In. split; [by apply list_elem_of_In|]. by rewrite Hay.
Qed.

Lemma distinct_subset (l : list Row) r : r ∈ DataFrame.distinct l → r ∈ l.
Proof.
  revert r. induction l as [|a l IH]; simpl; intros r; [done|].
  intros [->|Hr%list_elem_of_In%filter_In]%elem_of_cons; [left|].
  right. apply IH, list_elem_of_In, Hr.
Qed.

(** X1.  [dropDuplicates] keeps exactly one record of each group of equal
    records: every record it returns was in the input, every input record
    has exactly one equal among the returned ones, and no record has more
    than one. *)
Theorem dropDuplicates_one_of_each (E : Engine) (df : Dataset) :
  moves_records E →
  (∀ r, r ∈ concat (DataFrame.dropDuplicates E df) → r ∈ concat df) ∧
  (∀ r, r ∈ concat df →
     length (List.filter (row_eqb r) (concat (DataFrame.dropDuplicates E df))) = 1%nat) ∧
  (∀ r, (length (List.filter (row_eqb r) (concat (DataFrame.dropDuplicates E df))) ≤ 1)%nat).
Proof.
  intros HE. unfold DataFrame.dropDuplicates.
  pose proof (HE (shuffle_partitions E) (DataFrame.distinct (concat df))) as Hperm.
  split; [|split].
  - intros r Hr. rewrite Hperm in Hr. by apply distinct_subset.
  - intros r Hr. rewrite (filter_length_Permutation _ _ _ Hperm).
    pose proof (distinct_at_most_one (concat df) r) as Hle.
    destruct (distinct_represents _ _ Hr) as (y & Hy & Hry).
    assert (y ∈ List.filter (row_eqb r) (DataFrame.distinct (concat df))) as Hin.
    { apply list_elem_of_In, filter_In. split; [by apply list_elem_of_In|done]. }
    destruct (List.filter _ _); [by apply elem_of_nil in Hin|]. simpl in *. lia.
  - intros r. rewrite (filter_length_Permutation _ _ _ Hperm). apply distinct_at_most_one.
Qed.

Lemma dropDuplicates_one_of_each_witness :
  (∀ r, r ∈ concat (DataFrame.dropDuplicates sample_engine sample_dataset) →
        r ∈ concat sample_dataset) ∧
  (∀ r, r ∈ concat sample_dataset →
     length (List.filter (row_eqb r)
               (concat (DataFrame.dropDuplicates sample_engine sample_dataset))) = 1%nat) ∧
  (∀ r, (length (List.filter (row_eqb r)
                   (concat (DataFrame.dropDuplicates sample_engine sample_dataset))) ≤ 1)%nat).
Proof.
  apply (dropDuplicates_one_of_each sample_engine sample_dataset).
  exact sample_engine_moves_records.
Defined.

(** ** Missing values *)

Lemma complete_test subset (r : Row) :
  forallb (λ c, negb (is_null (get r c))) subset = true ↔ complete subset r.
Proof.
  rewrite forallb_forall. unfold complete. split.
  - intros H c Hc%list_elem_of_In%H. by destruct (get r c).
  - intros H c Hc%list_elem_of_In%H. by destruct (get r c).
Qed.


Lemma dropna_complete (subset : list string) (df : Dataset) :
  Forall (Forall (complete subset)) (DataFrame.dropna subset df).
Proof.
  unfold DataFrame.dropna. apply Forall_map, Forall_true. intros p. apply Forall_forall.
  intros r [_ Hr]%list_elem_of_In%filter_In. by apply complete_test.
Qed.


(** X4.  The three assignments of [cleaned_text] (lines 31 to 35) amount to
    the single assignment of trim(lower(regexp_replace(text_column))) and
    leave the other columns alone; a null text gives a null [cleaned_text]. *)
Theorem cleaned_text_is_one_assignment (E : Engine) (df : Dataset) :
  let cleaned :=
    trim E (lower E (regexp_replace E (col "text_column") "[^a-zA-Z0-9\s]" EmptyString)) in
  DataFrame.withColumn "cleaned_text" (trim E (col "cleaned_text"))
    (DataFrame.withColumn "cleaned_text" (lower E (col "cleaned_text"))
       (DataFrame.withColumn "cleaned_text"
          (regexp_replace E (col "text_column") "[^a-zA-Z0-9\s]" EmptyString) df))
  = DataFrame.withColumn "cleaned_text" cleaned df ∧
  (∀ r : Row, get r "text_column" = VNull → cleaned r = VNull) ∧
  (∀ (r : Row) s, r !! "text_column" = Some (VStr s) →
     cleaned r
     = VStr (trim_str E (lower_str E (regexp_replace_str E s "[^a-zA-Z0-9\s]" EmptyString)))).
Proof.
  intros cleaned. split; [|split].
  - unfold DataFrame.withColumn. rewrite <- !list_fmap_compose.
    apply list_fmap_ext. intros _ p _. simpl. rewrite <- !list_fmap_compose.
    apply list_fmap_ext. intros _ r _. simpl.
    unfold cleaned, trim, lower, regexp_replace, col, get.
    rewrite !lookup_insert_eq. simpl. by rewrite !insert_insert_eq.
  - intros r Hr. unfold cleaned, trim, lower, regexp_replace, col. by rewrite Hr.
  - intros r s Hr. unfold cleaned, trim, lower, regexp_replace, col, get. by rewrite Hr.
Qed.

(** ** Capping *)

Lemma capped_of_null (lower_bound upper_bound : Q) (r : Row) :
  get r "numeric_column" = VNull →
  numeric_column_capped lower_bound upper_bound r = VNull.
Proof.
  intros Hr.
  unfold numeric_column_capped, otherwise, and_when, when, Column_lt, Column_gt, col, lit, test.
  by rewrite Hr.
Qed.

(** X5.  With bounds in order the capped value of a numeric input, double or
    long, is a double between the bounds; when the double value of the input
    lies between them it is that value, so a double input between the bounds
    is returned unchanged. *)
Theorem capped_within_bounds (lower_bound upper_bound d : Q) (r : Row) :
  (lower_bound <= upper_bound)%Q →
  double_value (get r "numeric_column") = Some d →
  ∃ y, numeric_column_capped lower_bound upper_bound r = VNum y ∧
       (lower_bound <= y <= upper_bound)%Q ∧
       ((lower_bound <= d <= upper_bound)%Q → y = d) ∧
       (∀ x, r !! "numeric_column" = Some (VNum x) →
             (lower_bound <= x <= upper_bound)%Q → y = x).
Proof.
  intros Hb Hd. exists (clamp_spec lower_bound upper_bound d).
  split; [by apply capped_double|].
  assert ((lower_bound <= d <= upper_bound)%Q → clamp_spec lower_bound upper_bound d = d)
    as Hin.
  { intros ?. unfold clamp_spec.
    destruct (Qlt_le_dec d lower_bound); [lra|]. destruct (Qlt_le_dec upper_bound d); [lra|done]. }
  split; [|split; [exact Hin|]].
  - unfold clamp_spec.
    destruct (Qlt_le_dec d lower_bound), (Qlt_le_dec upper_bound d); lra.
  - intros x Hx Hrange. unfold get in Hd. rewrite Hx in Hd. injection Hd as <-.
    by apply Hin.
Qed.

Lemma capped_within_bounds_witness :
  ∃ y, numeric_column_capped 0 10 (sample_record "p" (VNum 7)) = VNum y ∧
       (0 <= y <= 10)%Q ∧
       ((0 <= 7 <= 10)%Q → y = 7%Q) ∧
       (∀ x, sample_record "p" (VNum 7) !! "numeric_column" = Some (VNum x) →
             (0 <= x <= 10)%Q → y = x).
Proof.
  apply (capped_within_bounds 0 10 7 (sample_record "p" (VNum 7))).
  - vm_compute. discriminate.
  - reflexivity.
Defined.

(** X6.  A record whose numeric column is null gets a null capped value
    whatever the bounds: a comparison with null takes no branch, and the
    null is what [otherwise] returns. *)
Theorem capped_null_stays_null (lower_bound upper_bound : Q) (r : Row) :
  r !! "numeric_column" = Some VNull →
  numeric_column_capped lower_bound upper_bound r = VNull ∧
  DataFrame.withColumn "numeric_column_capped"
    (numeric_column_capped lower_bound upper_bound) [[r]]
  = [[<["numeric_column_capped" := VNull]> r]].
Proof.
  intros Hr.
  assert (numeric_column_capped lower_bound upper_bound r = VNull) as Hnull.
  { apply capped_of_null. unfold get. by rewrite Hr. }
  split; [exact Hnull|]. unfold DataFrame.withColumn. simpl. by rewrite Hnull.
Qed.

Lemma capped_null_stays_null_witness :
  numeric_column_capped 0 10 (sample_record "t" VNull) = VNull ∧
  DataFrame.withColumn "numeric_column_capped" (numeric_column_capped 0 10)
    [[sample_record "t" VNull]]
  = [[<["numeric_column_capped" := VNull]> (sample_record "t" VNull)]].
Proof.
  apply (capped_null_stays_null 0 10 (sample_record "t" VNull)). reflexivity.
Defined.

(** X7.  With bounds in order capping preserves order: of two numbers the
    smaller never gets the larger capped value. *)
Theorem capping_preserves_order (lower_bound upper_bound x y : Q) (r1 r2 : Row) :
  (lower_bound <= upper_bound)%Q →
  r1 !! "numeric_column" = Some (VNum x) →
  r2 !! "numeric_column" = Some (VNum y) →
  (x <= y)%Q →
  ∃ x' y', numeric_column_capped lower_bound upper_bound r1 = VNum x' ∧
           numeric_column_capped lower_bound upper_bound r2 = VNum y' ∧
           (x' <= y')%Q.
Proof.
  intros Hb Hx Hy Hxy.
  exists (clamp_spec lower_bound upper_bound x), (clamp_spec lower_bound upper_bound y).
  split; [by apply capped_value|]. split; [by apply capped_value|].
  unfold clamp_spec.
  destruct (Qlt_le_dec x lower_bound), (Qlt_le_dec upper_bound x),
    (Qlt_le_dec y lower_bound), (Qlt_le_dec upper_bound y); lra.
Qed.

Lemma capping_preserves_order_witness :
  ∃ x' y', numeric_column_capped 0 10 (sample_record "p" (VNum (-3))) = VNum x' ∧
           numeric_column_capped 0 10 (sample_record "q" (VNum 12)) = VNum y' ∧
           (x' <= y')%Q.
Proof.
  apply (capping_preserves_order 0 10 (-3) 12
           (sample_record "p" (VNum (-3))) (sample_record "q" (VNum 12))).
  - vm_compute. discriminate.
  - reflexivity.
  - reflexivity.
  - vm_compute. discriminate.
Defined.

(** X8.  Running the capping statement twice with the same bounds gives the
    same data frame as running it once, whatever the bounds: it reads
    [numeric_column] and writes [numeric_column_capped]. *)
Theorem capping_statement_idempotent (lower_bound upper_bound : Q) (df : Dataset) :
  let cap := DataFrame.withColumn "numeric_column_capped"
               (numeric_column_capped lower_bound upper_bound) in
  cap (cap df) = cap df.
Proof.
  intros cap. unfold cap, DataFrame.withColumn. rewrite <- list_fmap_compose.
  apply list_fmap_ext. intros _ p _. simpl. rewrite <- list_fmap_compose.
  apply list_fmap_ext. intros _ r _. simpl.
  rewrite insert_insert_eq. f_equal.
  unfold numeric_column_capped, otherwise, and_when, when, Column_lt, Column_gt, col, lit, get.
  by rewrite lookup_insert_ne.
Qed.

(** ** Renaming and dropping columns *)

(** X9.  [withColumnRenamed] leaves a record without the old column as it
    is; in a record that has it, and not yet the new one, the value moves to
    the new column and the old column is gone; the other columns stay. *)
Theorem withColumnRenamed_moves_value (existing new : string) (df : Dataset) :
  existing ≠ new →
  Forall2 (Forall2 (λ r r' : Row,
     (r !! existing = None → r' = r) ∧
     (∀ v, r !! existing = Some v → r !! new = None →
           r' !! new = Some v ∧ r' !! existing = None) ∧
     (∀ c, c ≠ existing → c ≠ new → r' !! c = r !! c)))
    df (DataFrame.withColumnRenamed existing new df).
Proof.
  intros Hne. unfold DataFrame.withColumnRenamed.
  apply Forall2_fmap_r, Forall_Forall2_diag, Forall_true. intros p.
  apply Forall2_fmap_r, Forall_Forall2_diag, Forall_true. intros r.
  unfold compose. cbv beta.
  destruct (r !! existing) as [v|] eqn:Hv; (split; [done|]); split; try done.
  - intros ? [= <-] _. rewrite lookup_insert_eq, lookup_insert_ne by done.
    by rewrite lookup_delete_eq.
  - intros c Hc1 Hc2. by rewrite lookup_insert_ne, lookup_delete_ne.
Qed.

Lemma withColumnRenamed_moves_value_witness :
  Forall2 (Forall2 (λ r r' : Row,
     (r !! "old_column_name" = None → r' = r) ∧
     (∀ v, r !! "old_column_name" = Some v → r !! "new_column_name" = None →
           r' !! "new_column_name" = Some v ∧ r' !! "old_column_name" = None) ∧
     (∀ c, c ≠ "old_column_name" → c ≠ "new_column_name" → r' !! c = r !! c)))
    [[gappy_record]]
    (DataFrame.withColumnRenamed "old_column_name" "new_column_name" [[gappy_record]]).
Proof.
  apply (withColumnRenamed_moves_value "old_column_name" "new_column_name" [[gappy_record]]).
  discriminate.
Defined.

Lemma drop_lookup (columns : list string) (r : Row) c :
  foldr delete r columns !! c = if decide (c ∈ columns) then None else r !! c.
Proof.
  induction columns as [|k columns IH]; simpl.
  - destruct (decide (c ∈ [])) as [H|H]; [by apply elem_of_nil in H|done].
  - destruct (decide (k = c)) as [->|Hne].
    + rewrite lookup_delete_eq.
      destruct (decide (c ∈ c :: columns)) as [H|H]; [done|]. exfalso. apply H. left.
    + rewrite lookup_delete_ne, IH by done.
      destruct (decide (c ∈ columns)) as [H|H],
               (decide (c ∈ k :: columns)) as [H'|H']; try done.
      * exfalso. apply H'. by right.
      * apply elem_of_cons in H' as [->|?]; done.
Qed.

(** X10.  [drop] removes exactly the listed columns from every record: a
    listed column is gone (also when the record never had it), every other
    column is as before, and the records keep their places. *)
Theorem drop_removes_listed_columns (columns : list string) (df : Dataset) :
  Forall2 (Forall2 (λ r r' : Row,
     ∀ c, r' !! c = if decide (c ∈ columns) then None else r !! c))
    df (DataFrame.drop columns df).
Proof.
  unfold DataFrame.drop.
  apply Forall2_fmap_r, Forall_Forall2_diag, Forall_true. intros p.
  apply Forall2_fmap_r, Forall_Forall2_diag, Forall_true. intros r c.
  unfold compose. apply drop_lookup.
Qed.

(** ** What a complete run delivers *)

Lemma pipeline_output (E : Engine) (df out : Dataset) :
  (pipeline E df initial).2 = inr out →
  ∃ lower_bound upper_bound,
    DataFrame.approxQuantile E (prepared E df) "numeric_column" probabilities relativeError
      = ok [lower_bound; upper_bound] ∧
    out = DataFrame.repartition E 10
            (DataFrame.drop ["unnecessary_column1"; "unnecessary_column2"]
               (DataFrame.withColumnRenamed "old_column_name" "new_column_name"
                  (DataFrame.withColumn "date_column" (cast E (col "date_column") "date")
                     (DataFrame.withColumn "numeric_column"
                        (cast E (col "numeric_column") "double")
                        (DataFrame.withColumn "numeric_column_capped"
                           (numeric_column_capped lower_bound upper_bound)
                           (prepared E df)))))).
Proof.
  rewrite pipeline_run.
  destruct (DataFrame.approxQuantile _ _ _ _ _) as [c|quantiles] eqn:Hq; [done|].
  destruct (quantiles_none_or_two _ _ _ _ Hq) as [->|(lo & hi & ->)]; [done|].
  simpl. intros [= <-]. by exists lo, hi.
Qed.

Lemma each_record_length (f : Row → Row) (df : Dataset) :
  length (concat (map (map f) df)) = length (concat df).
Proof.
  induction df as [|p df IH]; simpl; [done|].
  by rewrite !length_app, length_map, IH.
Qed.

Lemma dropna_length subset (df : Dataset) :
  (length (concat (DataFrame.dropna subset df)) ≤ length (concat df))%nat.
Proof.
  unfold DataFrame.dropna. induction df as [|p df IH]; simpl; [done|].
  rewrite !length_app. pose proof (filter_length_le (λ r : Row, forallb (λ c, negb (is_null (get r c))) subset) p). lia.
Qed.

Lemma distinct_length (l : list Row) : (length (DataFrame.distinct l) ≤ length l)%nat.
Proof.
  induction l as [|r l IH]; simpl; [done|].
  pose proof (filter_length_le (λ r', negb (row_eqb r r')) (DataFrame.distinct l)). lia.
Qed.

(** X11.  A complete run delivers at most as many records as it was given,
    provided the shuffle only moves records. *)
Theorem pipeline_never_adds_records (E : Engine) (df out : Dataset) :
  moves_records E →
  (pipeline E df initial).2 = inr out →
  (length (concat out) ≤ length (concat df))%nat.
Proof.
  intros HE (lo & hi & _ & ->)%pipeline_output.
  unfold DataFrame.repartition. rewrite (HE 10%nat).
  unfold DataFrame.drop, DataFrame.withColumnRenamed, DataFrame.withColumn at 1 2 3.
  rewrite !each_record_length.
  unfold prepared, DataFrame.withColumn, DataFrame.fillna.
  rewrite !each_record_length.
  etrans; [apply dropna_length|].
  unfold DataFrame.dropDuplicates. rewrite (HE (shuffle_partitions E)).
  apply distinct_length.
Qed.

Lemma pipeline_never_adds_records_witness :
  (length (concat sample_output) ≤ length (concat sample_dataset))%nat.
Proof.
  apply (pipeline_never_adds_records sample_engine sample_dataset sample_output).
  - exact sample_engine_moves_records.
  - exact sample_run.
Defined.

Lemma each_record_Forall_to (P Q : Row → Prop) (f : Row → Row) (df : Dataset) :
  (∀ r, P r → Q (f r)) → Forall (Forall P) df → Forall (Forall Q) (map (map f) df).
Proof.
  intros Hf Hdf. apply Forall_map. eapply Forall_impl; [exact Hdf|].
  intros p Hp. apply Forall_map. eapply Forall_impl; [exact Hp|]. exact Hf.
Qed.

Lemma repartition_Forall (E : Engine) (P : Row → Prop) n (df : Dataset) :
  moves_records E → Forall (Forall P) df → Forall (Forall P) (DataFrame.repartition E n df).
Proof.
  intros HE Hdf. unfold DataFrame.repartition.
  apply exchange_Forall; [done|]. by apply Forall_concat.
Qed.

Lemma fill_lookup (r : Row) (kv : string * value) c :
  DataFrame.fill r kv !! c = r !! c ∨
  (r !! c = Some VNull ∧ DataFrame.fill r kv !! c = Some kv.2).
Proof.
  unfold DataFrame.fill. destruct (decide (kv.1 = c)) as [<-|Hne].
  - destruct (r !! kv.1) as [[]|] eqn:Hk; auto. right. by rewrite lookup_insert_eq.
  - left. destruct (r !! kv.1) as [[]|]; try done. by rewrite lookup_insert_ne.
Qed.

Lemma fill_shape present nonnull absent defaults (r : Row) :
  shape present nonnull absent r →
  shape present nonnull absent (foldl DataFrame.fill r defaults).
Proof.
  revert r. induction defaults as [|kv defaults IH]; intros r Hr; cbn [foldl]; [done|].
  apply IH. destruct Hr as (Hp & Hn & Ha). unfold shape, get in *. split; [|split].
  - intros c Hc. destruct (fill_lookup r kv c) as [H|[_ H]]; rewrite H; [by apply Hp|done].
  - intros c Hc. destruct (fill_lookup r kv c) as [H|[Hnull _]]; [rewrite H; by apply Hn|].
    specialize (Hn c Hc). by rewrite Hnull in Hn.
  - intros c Hc. destruct (fill_lookup r kv c) as [H|[Hnull _]]; [rewrite H; by apply Ha|].
    specialize (Ha c Hc). congruence.
Qed.

Lemma insert_shape present nonnull absent name v (r : Row) :
  name ∉ nonnull → name ∉ absent →
  shape present nonnull absent r →
  shape (name :: present) nonnull absent (<[name := v]> r).
Proof.
  intros Hn Ha (Hp & Hnn & Hab). unfold shape, get in *. split; [|split].
  - intros c [->|Hc]%elem_of_cons; [by rewrite lookup_insert_eq|].
    destruct (decide (name = c)) as [->|Hne];
      [by rewrite lookup_insert_eq|rewrite lookup_insert_ne by done; by apply Hp].
  - intros c Hc. rewrite lookup_insert_ne by (by intros ->). by apply Hnn.
  - intros c Hc. rewrite lookup_insert_ne by (by intros ->). by apply Hab.
Qed.

Lemma overwrite_shape present nonnull absent name v (r : Row) :
  name ∉ nonnull → name ∉ absent →
  shape present nonnull absent r →
  shape present nonnull absent (<[name := v]> r).
Proof.
  intros Hn Ha Hr.
  destruct (insert_shape _ _ _ name v r Hn Ha Hr) as (Hp & Hnn & Hab).
  split; [|split]; [|exact Hnn|exact Hab]. intros c Hc. apply Hp. by right.
Qed.

Lemma rename_shape present nonnull absent existing new (r : Row) :
  existing ≠ new → existing ∉ present → existing ∉ nonnull →
  new ∉ nonnull → new ∉ absent →
  shape present nonnull absent r →
  shape present nonnull (existing :: absent)
    match r !! existing with
    | Some v => <[new := v]> (delete existing r)
    | None => r
    end.
Proof.
  intros Hne He1 He2 Hn1 Hn2 (Hp & Hnn & Hab). unfold shape, get in *.
  destruct (r !! existing) as [v|] eqn:Hv; (split; [|split]).
  - intros c Hc. destruct (decide (new = c)) as [->|?];
      [by rewrite lookup_insert_eq|].
    rewrite lookup_insert_ne, lookup_delete_ne by (done || by intros ->). by apply Hp.
  - intros c Hc.
    rewrite lookup_insert_ne, lookup_delete_ne by (by intros ->). by apply Hnn.
  - intros c [->|Hc]%elem_of_cons.
    + by rewrite lookup_insert_ne, lookup_delete_eq.
    + rewrite lookup_insert_ne by (by intros ->).
      destruct (decide (existing = c)) as [->|?];
        [by rewrite lookup_delete_eq|rewrite lookup_delete_ne by done; by apply Hab].
  - done.
  - done.
  - intros c [->|Hc]%elem_of_cons; [done|by apply Hab].
Qed.

Lemma drop_shape present nonnull absent columns (r : Row) :
  (∀ c, c ∈ columns → (c ∉ present) ∧ (c ∉ nonnull)) →
  shape present nonnull absent r →
  shape present nonnull (columns ++ absent) (foldr delete r columns).
Proof.
  intros Hc (Hp & Hnn & Hab). unfold shape, get in *. split; [|split].
  - intros c Hin. rewrite drop_lookup.
    destruct (decide (c ∈ columns)) as [H|H]; [by destruct (Hc c H)|by apply Hp].
  - intros c Hin. rewrite drop_lookup.
    destruct (decide (c ∈ columns)) as [H|H]; [by destruct (Hc c H)|by apply Hnn].
  - intros c Hin. rewrite drop_lookup.
    destruct (decide (c ∈ columns)) as [H|H]; [done|].
    apply elem_of_app in Hin as [?|?]; [done|by apply Hab].
Qed.

Ltac names := by (apply (bool_decide_unpack _); vm_compute).

(** X12.  Every record a complete run delivers has the columns the script
    assigns ([cleaned_text], [categorical_column], [numeric_column_capped],
    [numeric_column], [date_column]), holds no null in the two important
    columns, and lacks the two unnecessary columns and [old_column_name]. *)
Theorem pipeline_delivers_schema (E : Engine) (df out : Dataset) :
  moves_records E →
  (pipeline E df initial).2 = inr out →
  Forall (Forall (shape
    ["date_column"; "numeric_column"; "numeric_column_capped";
     "categorical_column"; "cleaned_text"]
    ["important_column1"; "important_column2"]
    ["unnecessary_column1"; "unnecessary_column2"; "old_column_name"])) out.
Proof.
  intros HE (lo & hi & _ & ->)%pipeline_output.
  apply repartition_Forall; [done|].
  eapply each_record_Forall_to;
    [intros r Hr; apply (drop_shape _ _ ["old_column_name"]); [|exact Hr]|].
  { intros c Hc. split; revert c Hc; apply Forall_forall; repeat constructor; names. }
  eapply each_record_Forall_to;
    [intros r Hr; apply (rename_shape _ _ []); [names..|exact Hr]|].
  do 3 (eapply each_record_Forall_to;
          [intros r Hr; apply insert_shape; [names..|exact Hr]|]).
  unfold prepared.
  eapply each_record_Forall_to; [intros r Hr; apply insert_shape; [names..|exact Hr]|].
  eapply each_record_Forall_to;
    [intros r Hr; apply overwrite_shape; [names..|exact Hr]|].
  eapply each_record_Forall_to; [intros r Hr; apply insert_shape; [names..|exact Hr]|].
  do 2 (eapply each_record_Forall_to;
          [intros r Hr; apply overwrite_shape; [names..|exact Hr]|]).
  eapply each_record_Forall_to; [intros r Hr; apply fill_shape; exact Hr|].
  eapply Forall_impl;
    [apply (dropna_complete ["important_column1"; "important_column2"]
              (DataFrame.dropDuplicates E df))|].
  intros p Hp. eapply Forall_impl; [exact Hp|].
  intros r Hr. split; [|split]; [|exact Hr|]; intros c Hc; by apply elem_of_nil in Hc.
Qed.

Lemma pipeline_delivers_schema_witness :
  Forall (Forall (shape
    ["date_column"; "numeric_column"; "numeric_column_capped";
     "categorical_column"; "cleaned_text"]
    ["important_column1"; "important_column2"]
    ["unnecessary_column1"; "unnecessary_column2"; "old_column_name"])) sample_output.
Proof.
  apply (pipeline_delivers_schema sample_engine sample_dataset sample_output).
  - exact sample_engine_moves_records.
  - exact sample_run.
Defined.

Lemma rename_other existing new (r : Row) c :
  c ≠ existing → c ≠ new →
  match r !! existing with
  | Some v => <[new := v]> (delete existing r)
  | None => r
  end !! c = r !! c.
Proof.
  intros H1 H2. destruct (r !! existing); [|done].
  by rewrite lookup_insert_ne, lookup_delete_ne.
Qed.

Lemma clamp_spec_between lower_bound upper_bound x :
  (lower_bound <= upper_bound)%Q →
  (lower_bound <= clamp_spec lower_bound upper_bound x <= upper_bound)%Q.
Proof.
  intros Hb. unfold clamp_spec.
  destruct (Qlt_le_dec x lower_bound), (Qlt_le_dec upper_bound x); lra.
Qed.

(** X13.  In every record a complete run delivers the capped value is null
    or a number between the two bounds the run computed, the lower bound
    being at most the upper one. *)
Theorem delivered_caps_lie_between_bounds (E : Engine) (df out : Dataset) :
  moves_records E →
  (pipeline E df initial).2 = inr out →
  ∃ lower_bound upper_bound,
    DataFrame.approxQuantile E (prepared E df) "numeric_column" probabilities relativeError
      = ok [lower_bound; upper_bound] ∧
    (lower_bound <= upper_bound)%Q ∧
    Forall (Forall (λ r : Row,
      capped_between lower_bound upper_bound (r !! "numeric_column_capped"))) out.
Proof.
  intros HE (lo & hi & Hq & ->)%pipeline_output.
  pose proof (bounds_ordered _ _ _ _ _ Hq) as Hb.
  exists lo, hi. split; [exact Hq|]. split; [exact Hb|].
  apply repartition_Forall; [done|].
  eapply each_record_Forall_to.
  { intros r Hr. rewrite drop_lookup.
    destruct (decide _) as [Hin|_]; [|exact Hr].
    exfalso. revert Hin. names. }
  eapply each_record_Forall_to.
  { intros r Hr. rewrite rename_other by done. exact Hr. }
  do 2 (eapply each_record_Forall_to;
          [intros r Hr; rewrite lookup_insert_ne by done; exact Hr|]).
  eapply each_record_Forall_to;
    [|exact (estimate_ok_numeric _ _ _ _ _ _ (approxQuantile_estimate _ _ _ _ _ _ Hq))].
  intros r Hr. rewrite lookup_insert_eq. unfold capped_between.
  destruct Hr as [Hnull|[x Hx]].
  - left. f_equal. apply capped_of_null. unfold get. by rewrite Hnull.
  - right. exists (clamp_spec lo hi x). split; [|by apply clamp_spec_between].
    f_equal. apply capped_double. unfold get, number_of in *.
    by destruct (r !! "numeric_column") as [[]|]; simplify_eq.
Qed.

Lemma delivered_caps_lie_between_bounds_witness :
  ∃ lower_bound upper_bound,
    DataFrame.approxQuantile sample_engine (prepared sample_engine sample_dataset)
      "numeric_column" probabilities relativeError = ok [lower_bound; upper_bound] ∧
    (lower_bound <= upper_bound)%Q ∧
    Forall (Forall (λ r : Row,
      capped_between lower_bound upper_bound (r !! "numeric_column_capped"))) sample_output.
Proof.
  apply (delivered_caps_lie_between_bounds sample_engine sample_dataset sample_output).
  - exact sample_engine_moves_records.
  - exact sample_run.
Defined.
